(** * Frequency response data (control/frdata.py): a shallow embedding

    The development follows [control/frdata.py]: the class
    [FrequencyResponseData] (alias [FRD]), its operators, [eval],
    [__call__], [feedback], and the coercion routine [_convert_to_frd].

    Modelling choices.
    - numpy [float] values are exact rationals ([Qc], canonical, so that
      equal numbers are equal terms); [complex] values are pairs of them.
      Rounding, infinities and NaN are outside the model; division by zero
      yields zero instead of [inf]/[nan].
    - [fresp] is a rank-3 array: an explicit shape and nested data indexed
      [output][input][frequency].  It is never written after construction
      and is held by value.
    - [omega] is held by reference into a store of arrays, because
      [_convert_to_frd] sorts the array it is handed in place
      ([omega.sort()]) and the copy constructor shares the array.
    - warnings issued with [warn] are appended to a log in the state.
    - scipy's [splprep]/[splev] are outside the repository: they are
      section variables ([splprep] may fail).
    - keyword processing other than [smooth], signal names and the
      timebase ([_process_iosys_keywords], [common_timebase],
      [InputOutputSystem.__init__]) are not modelled: [ninputs] and
      [noutputs] are the defaults taken from [fresp.shape]. *)

From Stdlib Require Import QArith Qcanon Qcabs ZArith List Lia.
From stdpp Require Import base list numbers sorting option.
Import ListNotations.

Local Open Scope Qc_scope.

(** ** Scalars *)

Definition q (n : Z) (d : positive) : Qc := Q2Qc (n # d).

Record complex := mkC { re : Qc; im : Qc }.

#[global] Instance complex_eq_dec : EqDecision complex.
Proof. solve_decision. Defined.

Definition RtoC (x : Qc) : complex := mkC x 0.
Definition c0 : complex := RtoC 0.
Definition c1 : complex := RtoC 1.
Definition cadd (a b : complex) : complex := mkC (re a + re b) (im a + im b).
Definition cneg (a : complex) : complex := mkC (- re a) (- im a).
Definition csub (a b : complex) : complex := mkC (re a - re b) (im a - im b).
Definition cmul (a b : complex) : complex :=
  mkC (re a * re b - im a * im b) (re a * im b + im a * re b).
Definition cnorm2 (a : complex) : Qc := re a * re a + im a * im a.
Definition cinv (a : complex) : complex :=
  mkC (re a / cnorm2 a) (- im a / cnorm2 a).
Definition cdiv (a b : complex) : complex := cmul a (cinv b).

(** [x > 0] and [abs(x) > 0] on floats. *)
Definition gt0 (x : Qc) : bool := bool_decide (0 < x).
Definition abs_gt0 (x : Qc) : bool := bool_decide (0 < Qcabs x).

(** [FRD._epsw = 1e-8] and [abs(a - b) < FRD._epsw] *)
Definition _epsw : Qc := q 1 100000000.
Definition near (a b : Qc) : bool := bool_decide (Qcabs (a - b) < _epsw).

Local Close Scope Qc_scope.

(** ** Arrays *)

(** Rank-2 and rank-3 complex arrays: the shape is kept beside the data
    so that arrays with an empty axis keep their other extents. *)
Record matrix := Mat { mshape : nat * nat; mdata : list (list complex) }.
Record ndarray3 := Arr3 { shape3 : nat * nat * nat;
                          data3 : list (list (list complex)) }.

#[global] Instance matrix_eq_dec : EqDecision matrix.
Proof. solve_decision. Defined.
#[global] Instance ndarray3_eq_dec : EqDecision ndarray3.
Proof. solve_decision. Defined.

Definition dim0 (a : ndarray3) : nat := fst (fst (shape3 a)).
Definition dim1 (a : ndarray3) : nat := snd (fst (shape3 a)).
Definition dim2 (a : ndarray3) : nat := snd (shape3 a).

Definition mget (A : matrix) (i j : nat) : complex :=
  nth j (nth i (mdata A) []) c0.
Definition get3 (a : ndarray3) (i j k : nat) : complex :=
  nth k (nth j (nth i (data3 a) []) []) c0.

Definition mbuild (p m : nat) (f : nat -> nat -> complex) : matrix :=
  Mat (p, m) (map (fun i => map (fun j => f i j) (seq 0 m)) (seq 0 p)).
Definition build3 (p m n : nat) (f : nat -> nat -> nat -> complex) : ndarray3 :=
  Arr3 (p, m, n)
       (map (fun i => map (fun j => map (fun k => f i j k) (seq 0 n))
                          (seq 0 m)) (seq 0 p)).

(** [ones(shape)], elementwise maps, [a * c] for a scalar [c]. *)
Definition ones3 (sh : nat * nat * nat) : ndarray3 :=
  Arr3 sh (repeat (repeat (repeat c1 (snd sh)) (snd (fst sh))) (fst (fst sh))).
Definition map3 (f : complex -> complex) (a : ndarray3) : ndarray3 :=
  Arr3 (shape3 a) (map (map (map f)) (data3 a)).
Definition zip3 (f : complex -> complex -> complex) (a b : ndarray3) : ndarray3 :=
  Arr3 (shape3 a)
       (zip_with (zip_with (zip_with f)) (data3 a) (data3 b)).
Definition neg3 : ndarray3 -> ndarray3 := map3 cneg.
Definition scale3 (a : ndarray3) (c : complex) : ndarray3 :=
  map3 (fun x => cmul x c) a.

(** [a[:, :, k]] and the matrix product [A @ B]; the callers compare the
    inner extents before they multiply. *)
Definition slice (a : ndarray3) (k : nat) : matrix :=
  Mat (dim0 a, dim1 a) (map (map (fun ch => nth k ch c0)) (data3 a)).
Definition csum (l : list complex) : complex := fold_right cadd c0 l.
Definition matmul (A B : matrix) : matrix :=
  mbuild (fst (mshape A)) (snd (mshape B))
         (fun i j => csum (map (fun l => cmul (mget A i l) (mget B l j))
                               (seq 0 (snd (mshape A))))).
Definition madd (A B : matrix) : matrix :=
  mbuild (fst (mshape A)) (snd (mshape A))
         (fun i j => cadd (mget A i j) (mget B i j)).
Definition eye (n : nat) : matrix :=
  mbuild n n (fun i j => if Nat.eqb i j then c1 else c0).

(** [np.moveaxis(a, 2, 0)]: the list of the per-frequency matrices, and
    its inverse [np.moveaxis(., 0, 2)] for matrices of shape [(p, m)]. *)
Definition moveaxis_2_0 (a : ndarray3) : list matrix :=
  map (slice a) (seq 0 (dim2 a)).
Definition moveaxis_0_2 (p m : nat) (ms : list matrix) : ndarray3 :=
  build3 p m (length ms) (fun i j k => mget (nth k ms (Mat (p, m) [])) i j).

(** [numpy.linalg.inv] on one square matrix, by Gauss-Jordan elimination
    on [A | I]; [None] stands for [LinAlgError] (not square, or no
    non-zero pivot).  The elimination is exact: what LAPACK does with a
    matrix that is singular, or regular, only up to rounding is outside
    the model. *)
Definition swap_rows (i j : nat) (rows : list (list complex)) : list (list complex) :=
  match rows !! i, rows !! j with
  | Some ri, Some rj => <[i:=rj]> (<[j:=ri]> rows)
  | _, _ => rows
  end.

Definition gj_step (c : nat) (rows : list (list complex)) : option (list (list complex)) :=
  match list_find (fun r => nth c r c0 <> c0) (drop c rows) with
  | None => None
  | Some (k, _) =>
      let rows1 := swap_rows c (c + k) rows in
      let prow := nth c rows1 [] in
      let prow' := map (cmul (cinv (nth c prow c0))) prow in
      Some (imap (fun i r =>
                    if Nat.eqb i c then prow'
                    else zip_with (fun x y => csub x (cmul (nth c r c0) y)) r prow')
                 rows1)
  end.

Definition inv (A : matrix) : option matrix :=
  let n := fst (mshape A) in
  if negb (Nat.eqb n (snd (mshape A))) then None
  else
    let aug := imap (fun i r =>
                       r ++ map (fun j => if Nat.eqb i j then c1 else c0) (seq 0 n))
                    (mdata A) in
    match foldl (fun acc c => acc ≫= gj_step c) (Some aug) (seq 0 n) with
    | Some rows => Some (Mat (n, n) (map (drop n) rows))
    | None => None
    end.

(** ** Exceptions, warnings and the store *)

Inductive exn :=
| TypeError_data_constructor          (* "needs a 1-d or 3-d response data array ..." *)
| TypeError_copy_constructor          (* "one-argument constructor can only take in an FRD" *)
| ValueError_nargs (n : nat)          (* "Needs 1 or 2 arguments; received n" *)
| SplprepError                        (* a failure inside scipy's splprep *)
| NotImplementedError_grid            (* "Frequency ranges of FRD do not match ..." *)
| TypeError_convert                   (* "Can't convert given type ... to FRD system" *)
| ValueError_summand_inputs (a b : nat)
| ValueError_summand_outputs (a b : nat)
| ValueError_mul_size (a b : nat)     (* "G1 has a input(s), G2 has b output(s)" *)
| ValueError_broadcast                (* numpy: operands could not be broadcast *)
| NotImplementedError_truediv         (* "only implemented for SISO systems" *)
| ValueError_exponent                 (* "Exponent must be an integer" *)
| ValueError_not_1D                   (* "input list must be 1D" *)
| ValueError_real_omega               (* "FRD.eval can only accept real-valued omega" *)
| ValueError_not_in_list              (* "not all frequencies omega are in frequency list ..." *)
| ValueError_imaginary                (* "can only accept purely imaginary frequencies" *)
| ValueError_feedback                 (* "FRD.feedback, inputs/outputs mismatch" *)
| LinAlgError                         (* numpy.linalg.inv *)
| ValueError_squeeze                  (* a scalar request matched by several samples *)
| RecursionError
| InvalidReference.                   (* a reference outside the store; no object holds one *)

#[global] Instance exn_eq_dec : EqDecision exn.
Proof. solve_decision. Defined.

Inductive warning :=
| Warn_frequency_mismatch.  (* "Frequency points do not match; expect truncation and interpolation." *)

Definition loc := nat.

Record state := St { heap : list (list Qc); warnings : list warning }.

Inductive outcome (A : Type) := Ok (a : A) | Raise (e : exn).
Arguments Ok {A} a.
Arguments Raise {A} e.

Definition M (A : Type) : Type := state -> outcome A * state.

Definition ret {A} (a : A) : M A := fun s => (Ok a, s).
Definition raise {A} (e : exn) : M A := fun s => (Raise e, s).
Definition bind {A B} (m : M A) (k : A -> M B) : M B :=
  fun s => match m s with
           | (Ok a, s') => k a s'
           | (Raise e, s') => (Raise e, s')
           end.
(** [try: m except Exception: h] *)
Definition try_except {A} (m : M A) (h : M A) : M A :=
  fun s => match m s with
           | (Ok a, s') => (Ok a, s')
           | (Raise _, s') => h s'
           end.

Notation "'do' x <- m ; k" := (bind m (fun x => k))
  (at level 10, x name, m at level 100, k at level 200).
Notation "'do' ' p <- m ; k" := (bind m (fun x => match x with p => k end))
  (at level 10, p pattern, m at level 100, k at level 200).
Notation "m ;; k" := (bind m (fun _ => k))
  (at level 100, k at level 200, right associativity).

(** Reading an array, writing it in place, and allocating a new one. *)
Definition read (l : loc) : M (list Qc) :=
  fun s => match heap s !! l with
           | Some ws => (Ok ws, s)
           | None => (Raise InvalidReference, s)
           end.
Definition write (l : loc) (ws : list Qc) : M unit :=
  fun s => (Ok tt, St (<[l:=ws]> (heap s)) (warnings s)).
Definition alloc (ws : list Qc) : M loc :=
  fun s => (Ok (length (heap s)), St (heap s ++ [ws]) (warnings s)).
Definition warn (w : warning) : M unit :=
  fun s => (Ok tt, St (heap s) (warnings s ++ [w])).

(** [numpy.sort] / [ndarray.sort] on a 1-d float array. *)
Definition sort (ws : list Qc) : list Qc := merge_sort Qcle ws.

(** ** Analytic LTI models (external collaborators)

    An LTI model is consumed only through its evaluation at a list of
    points: [s = 1j * w] for a continuous-time model and
    [z = exp(1j * w * dt)] for a discrete-time one.  The points are kept
    symbolic.  [freqresp3] is the call with [squeeze=False] (always
    rank 3); [freqresp] is the call with the default squeeze, which
    yields a rank-1 array for a SISO model. *)
Inductive point := Jw (w : Qc) | ExpJwDt (w dt : Qc).
Inductive lti_out := Out1 (l : list complex) | Out3 (a : ndarray3).
Record LTI := { isctime : bool;
                lti_dt : Qc;
                freqresp3 : list point -> ndarray3;
                freqresp : list point -> lti_out }.

Definition lti_points (sys : LTI) (ws : list Qc) : list point :=
  if isctime sys then map Jw ws else map (fun w => ExpJwDt w (lti_dt sys)) ws.

(** [a.reshape(1, 1, -1)] and [a[np.newaxis, np.newaxis, :]] of a 1-d array. *)
Definition reshape_1_1 (l : list complex) : ndarray3 :=
  Arr3 (1, 1, length l)%nat [[l]].

(** Arguments of [eval] and [__call__]: a scalar, a 1-d array, or an
    array of rank [ndim >= 2] (rejected before its entries are read). *)
Inductive array_like :=
| Scalar (c : complex)
| Array1 (l : list complex)
| ArrayND (ndim : nat).

Definition atleast_1d (x : array_like) : option (list complex) :=
  match x with
  | Scalar c => Some [c]
  | Array1 l => Some l
  | ArrayND _ => None
  end.

(** [np.isin(self.omega, omega)]: a stored float equals a requested
    (possibly complex) value when the real parts agree and the requested
    imaginary part is zero. *)
Definition isin (stored : list Qc) (req : list complex) : list bool :=
  map (fun w => existsb (fun c => bool_decide (RtoC w = c)) req) stored.

(** [sum(elements)] for a boolean array. *)
Definition count_true (mask : list bool) : nat := length (filter (fun b => b = true) mask).

(** [ch[elements]]: boolean-mask selection along one axis, and
    [a[:, :, elements]]. *)
Fixpoint select {A} (mask : list bool) (l : list A) : list A :=
  match mask, l with
  | b :: mask', x :: l' => if b then x :: select mask' l' else select mask' l'
  | _, _ => []
  end.
Definition mask_select (mask : list bool) (a : ndarray3) : ndarray3 :=
  Arr3 (dim0 a, dim1 a, count_true mask) (map (map (select mask)) (data3 a)).

(** Results of [eval]: arrays of rank 0 to 3. *)
Inductive response :=
| RScalar (c : complex)
| RVector (l : list complex)
| RMatrix (A : matrix)
| RArray (a : ndarray3).

(** Exponents handed to [**]: only an object whose type is exactly
    [int] passes [type(other) == int]. *)
Inductive exponent :=
| ExpInt (n : Z)
| ExpBool (b : bool)
| ExpFloat (x : Qc)
| ExpComplex (c : complex)
| ExpOther.

Section FRD.

(** scipy.interpolate: the spline representation [tck]; [splprep u ch]
    stands for
    [splprep(u=u, x=[real(ch), imag(ch)], w=1.0/(absolute(ch) + 0.001), s=0.0)[0]]
    and [splev w tck] for [frraw[0] + 1.0j * frraw[1]] where
    [frraw = splev(w, tck, der=0)]. *)
Variable tck : Type.
Variable splprep : list Qc -> list complex -> option tck.
Variable splev : complex -> tck -> complex.

Record FRD := mkFRD { omega : loc;
                      fresp : ndarray3;
                      ifunc : option (list (list tck)) }.

Definition noutputs (f : FRD) : nat := dim0 (fresp f).
Definition ninputs (f : FRD) : nat := dim1 (fresp f).
(** [self.ifunc is not None] *)
Definition is_smooth (f : FRD) : bool :=
  match ifunc f with Some _ => true | None => false end.

(** Operands of the binary operators and of [feedback]. *)
Inductive operand :=
| OFRD (f : FRD)
| OLTI (sys : LTI)
| ONum (c : complex)                       (* int, float, complex, np.number *)
| OMat (sh : nat * nat) (rows : list (list Qc))  (* a constant real matrix *)
| OOther.                                  (* anything else *)

(** Positional arguments of the constructor. *)
Inductive resp_like :=
| Resp0 (c : complex)
| Resp1 (l : list complex)
| Resp3 (a : ndarray3)
| RespND (ndim : nat).      (* any other rank *)
Inductive freq_like :=
| Freq0 (w : Qc)
| Freq1 (ws : list Qc)
| FreqND (ndim : nat).      (* rank 2 or more *)
Inductive ctor_args :=
| ArgsLTI (sys : LTI) (w : list Qc)        (* FRD(sys, omega), sys an LTI but not an FRD *)
| ArgsData (d : resp_like) (w : freq_like) (* FRD(d, w) *)
| ArgsOne (o : operand)                    (* FRD(sys) *)
| ArgsCount (n : nat).                     (* n arguments, n not 1 or 2 *)

(** The loop over [i], [j] that fills [self.ifunc]. *)
Definition fit_channels (u : list Qc) (a : ndarray3) : option (list (list tck)) :=
  mapM (mapM (splprep u)) (data3 a).

(** [FrequencyResponseData.__init__] with the keyword [smooth].  An array
    bound to [self.omega] before a failed check is unreachable and is not
    recorded in the store. *)
Definition FRD_init (args : ctor_args) (smooth : bool) : M FRD :=
  do '(om, fr) <-
     (match args with
      | ArgsLTI otherlti w =>
          let ws := sort w in
          do l <- alloc ws;
          ret (l, freqresp3 otherlti (lti_points otherlti ws))
      | ArgsData d w =>
          let fr := match d with
                    | Resp0 c => Some (reshape_1_1 [c])
                    | Resp1 l => Some (reshape_1_1 l)
                    | Resp3 a => Some a
                    | RespND _ => None
                    end in
          let om := match w with
                    | Freq0 x => Some [x]
                    | Freq1 ws => Some ws
                    | FreqND _ => None
                    end in
          match fr, om with
          | Some a, Some ws =>
              if Nat.eqb (dim2 a) (length ws)
              then do l <- alloc ws; ret (l, a)
              else raise TypeError_data_constructor
          | _, _ => raise TypeError_data_constructor
          end
      | ArgsOne (OFRD f) => ret (omega f, fresp f)
      | ArgsOne _ => raise TypeError_copy_constructor
      | ArgsCount n => raise (ValueError_nargs n)
      end);
  if smooth then
    do u <- read om;
    match fit_channels u fr with
    | Some tbl => ret (mkFRD om fr (Some tbl))
    | None => raise SplprepError
    end
  else ret (mkFRD om fr None).

(** [abs(omega - sys.omega) < FRD._epsw], elementwise, then [.all()] *)
Definition all_near (xs ys : list Qc) : bool :=
  forallb (fun b => b) (zip_with near xs ys).
(** [(other.omega != self.omega).any()] *)
Definition any_differ (xs ys : list Qc) : bool :=
  existsb (fun b => b) (zip_with (fun x y => negb (bool_decide (x = y))) xs ys).

(** [_convert_to_frd(sys, omega, inputs=1, outputs=1)]; [omega] is the
    caller's array, passed by reference. *)
Definition _convert_to_frd (sys : operand) (omega_ref : loc)
           (inputs outputs : nat) : M FRD :=
  match sys with
  | OFRD f =>
      do ws <- read omega_ref;
      write omega_ref (sort ws) ;;               (* omega.sort() *)
      do ws' <- read omega_ref;
      do sw <- read (omega f);
      if Nat.eqb (length ws') (length sw) && all_near ws' sw
      then ret f
      else raise NotImplementedError_grid
  | OLTI l =>
      do ws <- read omega_ref;
      let ws' := sort ws in                      (* omega = np.sort(omega) *)
      let fr := match freqresp l (lti_points l ws') with
                | Out1 v => reshape_1_1 v
                | Out3 a => a
                end in
      FRD_init (ArgsData (Resp3 fr) (Freq1 ws')) true
  | ONum c =>
      do ws <- read omega_ref;
      let fr := scale3 (ones3 (outputs, inputs, length ws)) c in
      FRD_init (ArgsData (Resp3 fr) (Freq1 ws)) true
  | OMat (outputs', inputs') rows =>
      try_except
        (do ws <- read omega_ref;
         let fr := build3 outputs' inputs' (length ws)
                     (fun i j _ => RtoC (nth j (nth i rows []) 0%Qc)) in
         FRD_init (ArgsData (Resp3 fr) (Freq1 ws)) true)
        (raise TypeError_convert)
  | OOther => raise TypeError_convert
  end.

(** [-self] *)
Definition __neg__ (self : FRD) : M FRD :=
  do ws <- read (omega self);
  FRD_init (ArgsData (Resp3 (neg3 (fresp self))) (Freq1 ws)) false.

(** numpy broadcasting of two extents: equal, or one of them is 1. *)
Definition bdim (a b : nat) : option nat :=
  if Nat.eqb a b then Some a
  else if Nat.eqb a 1 then Some b
  else if Nat.eqb b 1 then Some a
  else None.
Definition bix (extent i : nat) : nat := if Nat.eqb extent 1 then 0%nat else i.

(** An elementwise binary operator on two rank-3 arrays, e.g.
    [self.fresp + other.fresp]. *)
Definition bcast3 (f : complex -> complex -> complex) (a b : ndarray3) : M ndarray3 :=
  match bdim (dim0 a) (dim0 b), bdim (dim1 a) (dim1 b), bdim (dim2 a) (dim2 b) with
  | Some p, Some m, Some n =>
      ret (build3 p m n
             (fun i j k =>
                f (get3 a (bix (dim0 a) i) (bix (dim1 a) j) (bix (dim2 a) k))
                  (get3 b (bix (dim0 b) i) (bix (dim1 b) j) (bix (dim2 b) k))))
  | _, _, _ => raise ValueError_broadcast
  end.

(** [self + other] *)
Definition __add__ (self : FRD) (other : operand) : M FRD :=
  (match other with
   | OFRD o =>
       do oo <- read (omega o);
       do so <- read (omega self);
       if negb (Nat.eqb (length oo) (length so)) || any_differ oo so
       then warn Warn_frequency_mismatch
       else ret tt
   | _ => ret tt
   end) ;;
  do other <- _convert_to_frd other (omega self) 1 1;
  if negb (Nat.eqb (ninputs self) (ninputs other))
  then raise (ValueError_summand_inputs (ninputs self) (ninputs other))
  else if negb (Nat.eqb (noutputs self) (noutputs other))
  then raise (ValueError_summand_outputs (noutputs self) (noutputs other))
  else
    do sum <- bcast3 cadd (fresp self) (fresp other);
    do oo <- read (omega other);
    FRD_init (ArgsData (Resp3 sum) (Freq1 oo)) false.

(** [-other] for an operand ([LTI.__neg__] is external: the negated
    model has the negated responses). *)
Definition lti_neg (sys : LTI) : LTI :=
  {| isctime := isctime sys;
     lti_dt := lti_dt sys;
     freqresp3 := fun pts => neg3 (freqresp3 sys pts);
     freqresp := fun pts => match freqresp sys pts with
                            | Out1 v => Out1 (map cneg v)
                            | Out3 a => Out3 (neg3 a)
                            end |}.

(** [self - other], that is [self + (-other)] *)
Definition __sub__ (self : FRD) (other : operand) : M FRD :=
  match other with
  | OFRD o => do no <- __neg__ o; __add__ self (OFRD no)
  | OLTI sys => __add__ self (OLTI (lti_neg sys))
  | ONum c => __add__ self (ONum (cneg c))
  | OMat sh rows => __add__ self (OMat sh (map (map Qcopp) rows))
  | OOther => raise TypeError_convert
  end.

(** The loop of [__mul__]: [fresp = empty((outputs, inputs, n))] filled
    by [fresp[:, :, i] = a[:, :, i] @ b[:, :, i]] for [i] in [range(n)]. *)
Definition matmul3 (outputs inputs n : nat) (a b : ndarray3) : ndarray3 :=
  moveaxis_0_2 outputs inputs
    (map (fun i => matmul (slice a i) (slice b i)) (seq 0 n)).

(** [self * other] *)
Definition __mul__ (self : FRD) (other : operand) : M FRD :=
  match other with
  | ONum c =>
      do ws <- read (omega self);
      FRD_init (ArgsData (Resp3 (scale3 (fresp self) c)) (Freq1 ws))
               (is_smooth self)
  | _ =>
      do other <- _convert_to_frd other (omega self) 1 1;
      if negb (Nat.eqb (ninputs self) (noutputs other))
      then raise (ValueError_mul_size (ninputs self) (noutputs other))
      else
        let inputs := ninputs other in
        let outputs := noutputs self in
        do ws <- read (omega self);
        let fr := matmul3 outputs inputs (length ws) (fresp self) (fresp other) in
        FRD_init (ArgsData (Resp3 fr) (Freq1 ws))
                 (is_smooth self && is_smooth other)
  end.

(** [self / other]; a zero scalar divisor is outside the model. *)
Definition __truediv__ (self : FRD) (other : operand) : M FRD :=
  match other with
  | ONum c =>
      do ws <- read (omega self);
      FRD_init (ArgsData (Resp3 (scale3 (fresp self) (cdiv c1 c))) (Freq1 ws))
               (is_smooth self)
  | _ =>
      do other <- _convert_to_frd other (omega self) 1 1;
      if Nat.ltb 1 (ninputs self) || Nat.ltb 1 (noutputs self) ||
         Nat.ltb 1 (ninputs other) || Nat.ltb 1 (noutputs other)
      then raise NotImplementedError_truediv
      else
        do quot <- bcast3 cdiv (fresp self) (fresp other);
        do ws <- read (omega self);
        FRD_init (ArgsData (Resp3 quot) (Freq1 ws))
                 (is_smooth self && is_smooth other)
  end.

(** [self ** other]: the recursion of [__pow__] on an [int], with the
    depth of the recursion as fuel. *)
Fixpoint pow_rec (fuel : nat) (self : FRD) (other : Z) : M FRD :=
  match fuel with
  | O => raise RecursionError
  | S fuel' =>
      if Z.eqb other 0 then
        do ws <- read (omega self);
        FRD_init (ArgsData (Resp3 (ones3 (shape3 (fresp self)))) (Freq1 ws))
                 (is_smooth self)                                 (* unity *)
      else if Z.ltb 0 other then
        do rest <- pow_rec fuel' self (other - 1);
        __mul__ self (OFRD rest)
      else
        do ws <- read (omega self);
        do unity <- FRD_init (ArgsData (Resp3 (ones3 (shape3 (fresp self))))
                                       (Freq1 ws)) false;
        do inverse <- __truediv__ unity (OFRD self);
        do rest <- pow_rec fuel' self (other + 1);
        __mul__ inverse (OFRD rest)
  end.

Definition __pow__ (self : FRD) (other : exponent) : M FRD :=
  match other with
  | ExpInt n => pow_rec (S (Z.abs_nat n)) self n
  | _ => raise ValueError_exponent
  end.

(** Modelled from the spec: [_process_frequency_response] of
    [control/lti.py] is not among the sources.  Spec 4.3: "if SISO and
    squeeze is not explicitly False, collapse to shape matching the
    input's shape (scalar in -> scalar out); if squeeze explicitly False,
    always return the full 3-axis array; non-SISO with squeeze True drops
    any axis of length 1".  A non-SISO system with no squeeze setting
    keeps the full array.  A scalar request that selected other than one
    sample has no scalar to return and fails. *)
Definition _process_frequency_response (self : FRD) (omega_arg : array_like)
           (out : ndarray3) (squeeze : option bool) : M response :=
  let siso := Nat.eqb (noutputs self) 1 && Nat.eqb (ninputs self) 1 in
  match squeeze with
  | Some false => ret (RArray out)
  | _ =>
      if siso then
        let ch := nth 0 (nth 0 (data3 out) []) [] in
        match omega_arg with
        | Scalar _ => match ch with
                      | [c] => ret (RScalar c)
                      | _ => raise ValueError_squeeze
                      end
        | _ => ret (RVector ch)
        end
      else
        match squeeze with
        | Some true =>
            let p1 := Nat.eqb (dim0 out) 1 in
            let m1 := Nat.eqb (dim1 out) 1 in
            let n1 := Nat.eqb (dim2 out) 1 in
            let hd2 (rows : list (list complex)) := map (fun r => nth 0 r c0) rows in
            match p1, m1, n1 with
            | true, false, false =>
                ret (RMatrix (Mat (dim1 out, dim2 out) (nth 0 (data3 out) [])))
            | false, true, false =>
                ret (RMatrix (Mat (dim0 out, dim2 out)
                                  (map (fun r => nth 0 r []) (data3 out))))
            | false, false, true => ret (RMatrix (slice out 0))
            | true, false, true => ret (RVector (hd2 (nth 0 (data3 out) [])))
            | false, true, true =>
                ret (RVector (hd2 (map (fun r => nth 0 r []) (data3 out))))
            | _, _, _ => ret (RArray out)
            end
        | _ => ret (RArray out)
        end
  end.

(** [self.eval(omega, squeeze)] *)
Definition eval (self : FRD) (omega_arg : array_like) (squeeze : option bool)
  : M response :=
  match atleast_1d omega_arg with
  | None => raise ValueError_not_1D
  | Some omega_array =>
      if existsb (fun c => gt0 (im c)) omega_array
      then raise ValueError_real_omega
      else
        do out <-
           (match ifunc self with
            | None =>
                do ws <- read (omega self);
                let elements := isin ws omega_array in
                if Nat.ltb (count_true elements) (length omega_array)
                then raise ValueError_not_in_list
                else ret (mask_select elements (fresp self))
            | Some tbl =>
                ret (build3 (noutputs self) (ninputs self) (length omega_array)
                       (fun i j k =>
                          match tbl !! i ≫= (.!! j) with
                          | Some t => splev (nth k omega_array c0) t
                          | None => c0
                          end))
            end);
        _process_frequency_response self omega_arg out squeeze
  end.

(** [self(s, squeeze)]; with [s=None] the result is a shallow copy of
    [self] (the presentation flags it updates are not modelled). *)
Definition imag_part (s : array_like) : array_like :=
  match s with
  | Scalar c => Scalar (RtoC (im c))
  | Array1 l => Array1 (map (fun c => RtoC (im c)) l)
  | ArrayND n => ArrayND n
  end.

Definition __call__ (self : FRD) (s : option array_like) (squeeze : option bool)
  : M (FRD + response) :=
  match s with
  | None => ret (inl self)
  | Some s =>
      match atleast_1d s with
      | None => raise ValueError_not_1D
      | Some l =>
          if existsb (fun c => abs_gt0 (re c)) l
          then raise ValueError_imaginary
          else do r <- eval self (imag_part s) squeeze; ret (inr r)
      end
  end.

(** [A @ B] on stacks of matrices: the leading axis broadcasts. *)
Definition stack_matmul (As Bs : list matrix) : M (list matrix) :=
  match bdim (length As) (length Bs) with
  | Some n =>
      ret (map (fun k => matmul (nth (bix (length As) k) As (Mat (0, 0)%nat []))
                                (nth (bix (length Bs) k) Bs (Mat (0, 0)%nat [])))
               (seq 0 n))
  | None => raise ValueError_broadcast
  end.

(** [self.feedback(other, sign)] *)
Definition feedback (self : FRD) (other : operand) (sign : Qc) : M FRD :=
  do other <- _convert_to_frd other (omega self) 1 1;
  if negb (Nat.eqb (noutputs self) (ninputs other)) ||
     negb (Nat.eqb (ninputs self) (noutputs other))
  then raise ValueError_feedback
  else
    let myfresp := moveaxis_2_0 (fresp self) in
    let otherfresp := moveaxis_2_0 (fresp other) in
    do prod <- stack_matmul otherfresp myfresp;
    let I_AB := map (madd (eye (ninputs self))) prod in
    match mapM inv I_AB with
    | None => raise LinAlgError
    | Some invs =>
        do resfresp <- stack_matmul myfresp invs;
        let fr := moveaxis_0_2 (noutputs self) (ninputs self) resfresp in
        do oo <- read (omega other);
        FRD_init (ArgsData (Resp3 fr) (Freq1 oo)) (is_smooth self)
    end.

(** The closed loop as the specification words it:
    [self * inv(I - sign * other * self)] at a frequency index [k]. *)
Definition mscale (c : complex) (A : matrix) : matrix :=
  mbuild (fst (mshape A)) (snd (mshape A)) (fun i j => cmul c (mget A i j)).
Definition closed_loop_spec (G H : matrix) (sign : Qc) : option matrix :=
  match inv (madd (eye (snd (mshape G)))
                  (mscale (RtoC (Qcopp sign)) (matmul H G))) with
  | Some X => Some (matmul G X)
  | None => None
  end.

(** The factory function [frd]: it hands its arguments to the constructor. *)
Definition frd (args : ctor_args) (smooth : bool) : M FRD := FRD_init args smooth.

End FRD.

Arguments mkFRD {tck} omega fresp ifunc.
Arguments omega {tck} f.
Arguments fresp {tck} f.
Arguments ifunc {tck} f.
Arguments noutputs {tck} f.
Arguments ninputs {tck} f.
Arguments is_smooth {tck} f.
Arguments OFRD {tck} f.
Arguments OLTI {tck} sys.
Arguments ONum {tck} c.
Arguments OMat {tck} sh rows.
Arguments OOther {tck}.
Arguments ArgsLTI {tck} sys w.
Arguments ArgsData {tck} d w.
Arguments ArgsOne {tck} o.
Arguments ArgsCount {tck} n.
Arguments fit_channels {tck} splprep u a.
Arguments FRD_init {tck} splprep args smooth.
Arguments _convert_to_frd {tck} splprep sys omega_ref inputs outputs.
Arguments __neg__ {tck} splprep self.
Arguments __add__ {tck} splprep self other.
Arguments __sub__ {tck} splprep self other.
Arguments __mul__ {tck} splprep self other.
Arguments __truediv__ {tck} splprep self other.
Arguments pow_rec {tck} splprep fuel self other.
Arguments __pow__ {tck} splprep self other.
Arguments _process_frequency_response {tck} self omega_arg out squeeze.
Arguments eval {tck} splev self omega_arg squeeze.
Arguments __call__ {tck} splev self s squeeze.
Arguments feedback {tck} splprep self other sign.
Arguments frd {tck} splprep args smooth.

#[global] Instance FRD_eq_dec {tck} `{EqDecision tck} : EqDecision (FRD tck).
Proof. solve_decision. Defined.
#[global] Instance warning_eq_dec : EqDecision warning.
Proof. solve_decision. Defined.
#[global] Instance state_eq_dec : EqDecision state.
Proof. solve_decision. Defined.
#[global] Instance outcome_eq_dec {A} `{EqDecision A} : EqDecision (outcome A).
Proof. solve_decision. Defined.
#[global] Instance response_eq_dec : EqDecision response.
Proof. solve_decision. Defined.

(** ** Statements about frequency grids *)

(** Two grids differ beyond the tolerance: the lengths differ, or some
    pair of samples is at least [_epsw] apart. *)
Definition grids_differ (ws1 ws2 : list Qc) : Prop :=
  length ws1 <> length ws2 \/
  exists k a b, ws1 !! k = Some a /\ ws2 !! k = Some b /\
                (_epsw <= Qcabs (a - b))%Qc.

(** ** Sample objects

    A spline library whose fit always succeeds, and the objects of the
    scenarios evaluated below. *)
Definition splprep_unit : list Qc -> list complex -> option unit :=
  fun _ _ => Some tt.
Definition splev_unit : complex -> unit -> complex := fun _ _ => c0.
Definition empty_state : state := St [] [].
Definition rc (n : Z) : complex := RtoC (q n 1).
Definition rq (n : Z) : Qc := q n 1.

(** [frd(d, w)] for a 1-d response [d] and a frequency list [w]. *)
Definition frd_siso (d : list complex) (w : list Qc) : M (FRD unit) :=
  frd splprep_unit (ArgsData (Resp1 d) (Freq1 w)) false.
(** The object [frd(d, w)] builds when it is the only one in the store,
    or the second one. *)
Definition siso_at (l : loc) (d : list complex) : FRD unit :=
  mkFRD l (reshape_1_1 d) None.

(** The 2x2 identity response at the single frequency 1. *)
Definition identity_2x2 : ndarray3 :=
  Arr3 (2, 2, 1)%nat [[[c1]; [c0]]; [[c0]; [c1]]].

(** A continuous-time model with unit response at every point. *)
Definition unit_gain : LTI :=
  {| isctime := true;
     lti_dt := 0%Qc;
     freqresp3 := fun pts => reshape_1_1 (map (fun _ => c1) pts);
     freqresp := fun pts => Out1 (map (fun _ => c1) pts) |}.

(** A continuous-time SISO model whose response at [j*w] is [w]. *)
Definition point_freq (p : point) : complex :=
  match p with Jw w => RtoC w | ExpJwDt w _ => RtoC w end.
Definition ramp_model : LTI :=
  {| isctime := true;
     lti_dt := 0%Qc;
     freqresp3 := fun pts => reshape_1_1 (map point_freq pts);
     freqresp := fun pts => Out1 (map point_freq pts) |}.

(** ** The reflected operators

    [__radd__], [__rsub__], [__rmul__] and [__rtruediv__] of
    [FrequencyResponseData]. *)

(** The left operand of [other - self] when Python calls [__rsub__]: a
    Python number, for which [other + x] is [x.__radd__(other)], or an
    FRD, for which it is [other.__add__(x)].  (The sum with an LTI model
    or an array on the left is computed by their own classes.) *)
Inductive left_operand (tck : Type) :=
| LNum (c : complex)
| LFRD (f : FRD tck).
Arguments LNum {tck} c.
Arguments LFRD {tck} f.

Section Reflected.
Variable tck : Type.
Variable splprep : list Qc -> list complex -> option tck.

(** [other + self] *)
Definition __radd__ (self : FRD tck) (other : operand tck) : M (FRD tck) :=
  __add__ splprep self other.

(** [other - self], that is [other + (-self)] *)
Definition __rsub__ (self : FRD tck) (other : left_operand tck) : M (FRD tck) :=
  do ns <- __neg__ splprep self;
  match other with
  | LNum c => __radd__ ns (ONum c)
  | LFRD o => __add__ splprep o (OFRD ns)
  end.

(** [other * self] *)
Definition __rmul__ (self : FRD tck) (other : operand tck) : M (FRD tck) :=
  match other with
  | ONum c =>
      do ws <- read (omega self);
      FRD_init splprep (ArgsData (Resp3 (scale3 (fresp self) c)) (Freq1 ws))
               (is_smooth self)
  | _ =>
      do other <- _convert_to_frd splprep other (omega self) 1 1;
      if negb (Nat.eqb (noutputs self) (ninputs other))
      then raise (ValueError_mul_size (ninputs other) (noutputs self))
      else
        let inputs := ninputs self in
        let outputs := noutputs other in
        do ws <- read (omega self);
        let fr := matmul3 outputs inputs (length ws) (fresp other) (fresp self) in
        FRD_init splprep (ArgsData (Resp3 fr) (Freq1 ws))
                 (is_smooth self && is_smooth other)
  end.

(** [other / self]; the error of the SISO check is the
    [NotImplementedError] of [__truediv__] with [__rtruediv__] in its
    text. *)
Definition __rtruediv__ (self : FRD tck) (other : operand tck) : M (FRD tck) :=
  match other with
  | ONum c =>
      do ws <- read (omega self);
      FRD_init splprep
               (ArgsData (Resp3 (map3 (fun x => cdiv c x) (fresp self))) (Freq1 ws))
               (is_smooth self)
  | _ =>
      do other <- _convert_to_frd splprep other (omega self) 1 1;
      if Nat.ltb 1 (ninputs self) || Nat.ltb 1 (noutputs self) ||
         Nat.ltb 1 (ninputs other) || Nat.ltb 1 (noutputs other)
      then raise NotImplementedError_truediv
      else __truediv__ splprep other (OFRD self)
  end.

End Reflected.

Arguments __radd__ {tck} splprep self other.
Arguments __rsub__ {tck} splprep self other.
Arguments __rmul__ {tck} splprep self other.
Arguments __rtruediv__ {tck} splprep self other.

(** ** Shapes *)

(** The data of a rank-3 array agree with its shape. *)
Definition wf_ndarray3 (a : ndarray3) : Prop :=
  length (data3 a) = dim0 a /\
  Forall (fun row => length row = dim1 a /\
                     Forall (fun ch => length ch = dim2 a) row) (data3 a).

(** [s'] keeps every array of [s] and has possibly more of them. *)
Definition store_extends (s s' : state) : Prop :=
  exists more, heap s' = heap s ++ more.

(** A computation that only reads the store or adds arrays to it. *)
Definition extending {A} (m : M A) : Prop :=
  forall s, store_extends s (snd (m s)).

(** The response of [r] has one sample for every frequency of the grid
    that [r.omega] refers to. *)
Definition grid_consistent {tck} (s : state) (r : FRD tck) : Prop :=
  exists ws, heap s !! omega r = Some ws /\ dim2 (fresp r) = length ws.

(** * Properties *)

(** ** Scalars and sorting *)

Lemma sort_Sorted (ws : list Qc) : Sorted Qcle (sort ws).
Proof. apply (Sorted_merge_sort Qcle). Qed.

Lemma sort_Permutation (ws : list Qc) : sort ws ≡ₚ ws.
Proof. apply (merge_sort_Permutation Qcle). Qed.

Lemma sort_sorted_id (ws : list Qc) : Sorted Qcle ws -> sort ws = ws.
Proof.
  intros Hs.
  apply (StronglySorted_unique Qcle).
  - apply Sorted_StronglySorted; [apply _ | apply sort_Sorted].
  - apply Sorted_StronglySorted; [apply _ | exact Hs].
  - apply sort_Permutation.
Qed.

Lemma Qcabs_0 : Qcabs 0%Qc = 0%Qc.
Proof. apply Qc_is_canon. reflexivity. Qed.

Lemma epsw_pos : (0 < _epsw)%Qc.
Proof. reflexivity. Qed.

Lemma near_refl (a : Qc) : near a a = true.
Proof.
  unfold near. apply bool_decide_eq_true.
  replace (a - a)%Qc with 0%Qc by ring.
  rewrite Qcabs_0. exact epsw_pos.
Qed.

Lemma near_far (a b : Qc) : (_epsw <= Qcabs (a - b))%Qc -> near a b = false.
Proof.
  intros H. unfold near. apply bool_decide_eq_false.
  now apply Qcle_not_lt.
Qed.

Lemma near_eq_or_far (a b : Qc) : near a b = false -> a <> b.
Proof. intros H ->. rewrite near_refl in H. discriminate. Qed.

Lemma all_near_refl (ws : list Qc) : all_near ws ws = true.
Proof.
  unfold all_near. induction ws as [|w ws IH]; simpl; [reflexivity|].
  now rewrite near_refl.
Qed.

Lemma all_near_far (xs ys : list Qc) (k : nat) (a b : Qc) :
  xs !! k = Some a -> ys !! k = Some b -> near a b = false ->
  all_near xs ys = false.
Proof.
  unfold all_near. revert ys k.
  induction xs as [|x xs IH]; intros [|y ys] [|k] Ha Hb Hn;
    simpl in *; try discriminate.
  - injection Ha as ->. injection Hb as ->. now rewrite Hn.
  - rewrite (IH ys k Ha Hb Hn). apply andb_false_r.
Qed.

Lemma any_differ_at (xs ys : list Qc) (k : nat) (a b : Qc) :
  xs !! k = Some a -> ys !! k = Some b -> a <> b ->
  any_differ xs ys = true.
Proof.
  unfold any_differ. revert ys k.
  induction xs as [|x xs IH]; intros [|y ys] [|k] Ha Hb Hn;
    simpl in *; try discriminate.
  - injection Ha as ->. injection Hb as ->.
    rewrite bool_decide_eq_false_2 by exact Hn. reflexivity.
  - rewrite (IH ys k Ha Hb Hn). apply orb_true_r.
Qed.

Lemma abs_gt0_true (x : Qc) : x <> 0%Qc -> abs_gt0 x = true.
Proof.
  intros Hx. unfold abs_gt0. apply bool_decide_eq_true.
  destruct (Qclt_le_dec 0 (Qcabs x)) as [H|H]; [exact H|].
  exfalso. apply Hx. apply Qcabs_null.
  apply Qcle_antisym; [exact H | apply Qcabs_nonneg].
Qed.

Lemma abs_gt0_false (x : Qc) : x = 0%Qc -> abs_gt0 x = false.
Proof.
  intros ->. unfold abs_gt0. apply bool_decide_eq_false.
  rewrite Qcabs_0. intros H. now apply (Qclt_not_le _ _ H), Qcle_refl.
Qed.

(** ** Running monadic code *)

Lemma bind_Ok_inv {A B} (m : M A) (k : A -> M B) (s s' : state) (r : B) :
  bind m k s = (Ok r, s') ->
  exists a s1, m s = (Ok a, s1) /\ k a s1 = (Ok r, s').
Proof.
  unfold bind. destruct (m s) as [[a|e] s1]; intros H.
  - now exists a, s1.
  - discriminate.
Qed.

Lemma bind_Ok {A B} (m : M A) (k : A -> M B) (s s1 : state) (a : A) :
  m s = (Ok a, s1) -> bind m k s = k a s1.
Proof. unfold bind. now intros ->. Qed.

Lemma bind_Raise {A B} (m : M A) (k : A -> M B) (s s1 : state) (e : exn) :
  m s = (Raise e, s1) -> bind m k s = (Raise e, s1).
Proof. unfold bind. now intros ->. Qed.

Lemma read_Ok (l : loc) (ws : list Qc) (s : state) :
  heap s !! l = Some ws -> read l s = (Ok ws, s).
Proof. unfold read. now intros ->. Qed.

Lemma read_Ok_inv (l : loc) (ws : list Qc) (s s' : state) :
  read l s = (Ok ws, s') -> heap s !! l = Some ws /\ s' = s.
Proof.
  unfold read. destruct (heap s !! l); intros H; inversion H; auto.
Qed.

Lemma write_same (l : loc) (ws : list Qc) (s : state) :
  heap s !! l = Some ws -> write l ws s = (Ok tt, s).
Proof.
  intros H. unfold write. rewrite list_insert_id by exact H.
  now destruct s.
Qed.

Lemma lookup_alloc (h : list (list Qc)) (ws : list Qc) :
  (h ++ [ws]) !! length h = Some ws.
Proof. now apply list_lookup_middle. Qed.

Lemma lookup_alloc_old (h : list (list Qc)) (ws ws' : list Qc) (l : loc) :
  h !! l = Some ws -> (h ++ [ws']) !! l = Some ws.
Proof.
  intros H. rewrite lookup_app_l; [exact H|]. now apply lookup_lt_Some in H.
Qed.

Section Constructor.
Context {tck : Type} (splprep : list Qc -> list complex -> option tck).

(** The constructor on explicit data of matching length. *)
Lemma FRD_init_data (a : ndarray3) (ws : list Qc) (smooth : bool) (s : state) :
  dim2 a = length ws ->
  FRD_init splprep (ArgsData (Resp3 a) (Freq1 ws)) smooth s =
  let s1 := St (heap s ++ [ws]) (warnings s) in
  if smooth then
    match fit_channels splprep ws a with
    | Some tbl => (Ok (mkFRD (length (heap s)) a (Some tbl)), s1)
    | None => (Raise SplprepError, s1)
    end
  else (Ok (mkFRD (length (heap s)) a None), s1).
Proof.
  intros Hd. unfold FRD_init, bind, alloc, ret, raise. cbn -[fit_channels].
  rewrite Hd, Nat.eqb_refl. cbn -[fit_channels].
  destruct smooth; [|reflexivity].
  unfold read. cbn -[fit_channels]. rewrite lookup_alloc.
  now destruct (fit_channels splprep ws a).
Qed.

Lemma FRD_init_data_plain (a : ndarray3) (ws : list Qc) (s : state) :
  dim2 a = length ws ->
  FRD_init splprep (ArgsData (Resp3 a) (Freq1 ws)) false s =
  (Ok (mkFRD (length (heap s)) a None), St (heap s ++ [ws]) (warnings s)).
Proof. intros Hd. now rewrite FRD_init_data. Qed.

(** Whatever the arguments, a constructor call without [smooth] yields
    an object with no interpolant, and one with [smooth] yields one that
    has it. *)
Lemma FRD_init_ifunc (args : ctor_args tck) (smooth : bool) (s s' : state) (r : FRD tck) :
  FRD_init splprep args smooth s = (Ok r, s') -> is_smooth r = smooth.
Proof.
  unfold FRD_init. intros H.
  apply bind_Ok_inv in H as ([om fr] & s1 & _ & H).
  destruct smooth.
  - apply bind_Ok_inv in H as (u & s2 & _ & H).
    destruct (fit_channels splprep u fr); inversion H. reflexivity.
  - inversion H. reflexivity.
Qed.

(** [_convert_to_frd] on an FRD whose grid the caller's ascending grid
    matches: the operand is returned and the store is unchanged. *)
Lemma convert_frd_match (g : FRD tck) (l : loc) (ws sw : list Qc)
      (i o : nat) (s : state) :
  heap s !! l = Some ws -> Sorted Qcle ws ->
  heap s !! omega g = Some sw ->
  length ws = length sw -> all_near ws sw = true ->
  _convert_to_frd splprep (OFRD g) l i o s = (Ok g, s).
Proof.
  intros Hl Hs Hg Hlen Hnear. unfold _convert_to_frd.
  rewrite (bind_Ok _ _ _ _ _ (read_Ok _ _ _ Hl)).
  rewrite (sort_sorted_id _ Hs).
  rewrite (bind_Ok _ _ _ _ _ (write_same _ _ _ Hl)).
  rewrite (bind_Ok _ _ _ _ _ (read_Ok _ _ _ Hl)).
  rewrite (bind_Ok _ _ _ _ _ (read_Ok _ _ _ Hg)).
  rewrite Hlen, Nat.eqb_refl, Hnear. reflexivity.
Qed.

Lemma convert_frd_mismatch (g : FRD tck) (l : loc) (ws sw : list Qc)
      (i o : nat) (s : state) :
  heap s !! l = Some ws -> Sorted Qcle ws ->
  heap s !! omega g = Some sw ->
  Nat.eqb (length ws) (length sw) && all_near ws sw = false ->
  _convert_to_frd splprep (OFRD g) l i o s = (Raise NotImplementedError_grid, s).
Proof.
  intros Hl Hs Hg Hbad. unfold _convert_to_frd.
  rewrite (bind_Ok _ _ _ _ _ (read_Ok _ _ _ Hl)).
  rewrite (sort_sorted_id _ Hs).
  rewrite (bind_Ok _ _ _ _ _ (write_same _ _ _ Hl)).
  rewrite (bind_Ok _ _ _ _ _ (read_Ok _ _ _ Hl)).
  rewrite (bind_Ok _ _ _ _ _ (read_Ok _ _ _ Hg)).
  rewrite Hbad. reflexivity.
Qed.

End Constructor.

(** ** Closing concrete goals by evaluation *)

Ltac by_compute := apply (bool_decide_unpack _); vm_compute; exact I.
Ltac qc_order := vm_compute; congruence.

Section Addition.
Context {tck : Type} (splprep : list Qc -> list complex -> option tck).

Lemma grids_differ_check (ws1 ws2 : list Qc) :
  grids_differ ws1 ws2 ->
  Nat.eqb (length ws1) (length ws2) && all_near ws1 ws2 = false /\
  negb (Nat.eqb (length ws2) (length ws1)) || any_differ ws2 ws1 = true.
Proof.
  intros [Hlen | (k & a & b & Ha & Hb & Hfar)].
  - split.
    + apply andb_false_iff. left. now apply Nat.eqb_neq.
    + apply orb_true_iff. left. apply negb_true_iff.
      apply Nat.eqb_neq. congruence.
  - pose proof (near_far _ _ Hfar) as Hn. split.
    + apply andb_false_iff. right. exact (all_near_far _ _ _ _ _ Ha Hb Hn).
    + apply orb_true_iff. right.
      apply (any_differ_at _ _ k b a Hb Ha).
      intros ->. now apply near_eq_or_far in Hn.
Qed.

(** When the left operand's grid is stored in ascending order and the
    two grids differ beyond the 1e-8 tolerance (different lengths, or
    some pair of samples at least 1e-8 apart), the sum of two FRDs fails
    with the grid-mismatch error, after the frequency-mismatch warning
    has been issued; the store is left as it was. *)
Lemma add_grid_mismatch (f g : FRD tck) (s : state) (wsf wsg : list Qc) :
  heap s !! omega f = Some wsf ->
  heap s !! omega g = Some wsg ->
  Sorted Qcle wsf ->
  grids_differ wsf wsg ->
  __add__ splprep f (OFRD g) s =
  (Raise NotImplementedError_grid,
   St (heap s) (warnings s ++ [Warn_frequency_mismatch])).
Proof.
  intros Hf Hg Hsorted Hdiff.
  destruct (grids_differ_check _ _ Hdiff) as [Hbad Hwarn].
  unfold __add__.
  rewrite (bind_Ok _ _ s
             (St (heap s) (warnings s ++ [Warn_frequency_mismatch])) tt).
  - apply bind_Raise.
    now apply (convert_frd_mismatch splprep g (omega f) wsf wsg).
  - rewrite (bind_Ok _ _ _ _ _ (read_Ok _ _ _ Hg)).
    rewrite (bind_Ok _ _ _ _ _ (read_Ok _ _ _ Hf)).
    rewrite Hwarn. reflexivity.
Qed.

End Addition.

(** The concrete sum [frd([1,2,3],[4,5,6]) + frd([2,3,4],[5,6,7])]. *)
Lemma add_spec_scenario :
  let s := St [[rq 4; rq 5; rq 6]; [rq 5; rq 6; rq 7]] [] in
  (frd_siso [rc 1; rc 2; rc 3] [rq 4; rq 5; rq 6] empty_state =
     (Ok (siso_at 0 [rc 1; rc 2; rc 3]), St [[rq 4; rq 5; rq 6]] []) /\
   frd_siso [rc 2; rc 3; rc 4] [rq 5; rq 6; rq 7]
            (St [[rq 4; rq 5; rq 6]] []) =
     (Ok (siso_at 1 [rc 2; rc 3; rc 4]), s)) /\
  __add__ splprep_unit (siso_at 0 [rc 1; rc 2; rc 3])
          (OFRD (siso_at 1 [rc 2; rc 3; rc 4])) s =
  (Raise NotImplementedError_grid,
   St (heap s) (warnings s ++ [Warn_frequency_mismatch])).
Proof.
  split; [split; reflexivity|].
  apply (add_grid_mismatch splprep_unit _ _ _
           [rq 4; rq 5; rq 6] [rq 5; rq 6; rq 7]).
  - reflexivity.
  - reflexivity.
  - repeat constructor; qc_order.
  - right. exists 0%nat, (rq 4), (rq 5).
    split; [reflexivity|]. split; [reflexivity|]. qc_order.
Defined.

(** C4, on the code: [frd([1,2],[2,1]) + frd([3,4],[1,2])].  The stored
    grids differ by 1 at both indices and the warning is issued, yet no
    error is raised: [_convert_to_frd] sorts the left operand's grid in
    place ([omega.sort()]), finds it equal to the right operand's grid,
    and [__add__] returns [[4, 6]] on the grid [[1, 2]].  The left
    operand has the response 2 at frequency 1 and the right operand 3,
    but the returned sum has 4 there; and after the call the left
    operand itself answers 1 at frequency 1, because its grid has been
    reordered under its response. *)
Theorem add_unsorted_left_grid :
  let f := siso_at 0 [rc 1; rc 2] in
  let g := siso_at 1 [rc 3; rc 4] in
  let s := St [[rq 2; rq 1]; [rq 1; rq 2]] [] in
  let r := siso_at 2 [rc 4; rc 6] in
  let s' := St [[rq 1; rq 2]; [rq 1; rq 2]; [rq 1; rq 2]]
               [Warn_frequency_mismatch] in
  (do f <- frd_siso [rc 1; rc 2] [rq 2; rq 1];
   do g <- frd_siso [rc 3; rc 4] [rq 1; rq 2];
   ret (f, g)) empty_state = (Ok (f, g), s) /\
  grids_differ [rq 2; rq 1] [rq 1; rq 2] /\
  __add__ splprep_unit f (OFRD g) s = (Ok r, s') /\
  eval splev_unit f (Scalar (rc 1)) None s = (Ok (RScalar (rc 2)), s) /\
  eval splev_unit g (Scalar (rc 1)) None s = (Ok (RScalar (rc 3)), s) /\
  eval splev_unit r (Scalar (rc 1)) None s' = (Ok (RScalar (rc 4)), s') /\
  eval splev_unit f (Scalar (rc 1)) None s' = (Ok (RScalar (rc 1)), s').
Proof.
  intros f g s r s'.
  split; [by_compute|]. split.
  - right. exists 0%nat, (rq 2), (rq 1).
    split; [reflexivity|]. split; [reflexivity|]. qc_order.
  - repeat split; by_compute.
Qed.

(** Grids that differ within the tolerance: the warning is issued and
    the sum is returned, on the right operand's grid. *)
Lemma add_within_tolerance :
  (do f <- frd_siso [rc 1] [rq 1];
   do g <- frd_siso [rc 2] [q 1000000001 1000000000];
   __add__ splprep_unit f (OFRD g)) empty_state =
  (Ok (siso_at 2 [rc 3]),
   St [[rq 1]; [q 1000000001 1000000000]; [q 1000000001 1000000000]]
      [Warn_frequency_mismatch]).
Proof. by_compute. Qed.

(** The exact-subset grids of the tests: [frd([1,2,3],[4,5,6]) + frd([2,3],[4,5])]. *)
Lemma add_subset_grid :
  (do f <- frd_siso [rc 1; rc 2; rc 3] [rq 4; rq 5; rq 6];
   do g <- frd_siso [rc 2; rc 3] [rq 4; rq 5];
   __add__ splprep_unit f (OFRD g)) empty_state =
  (Raise NotImplementedError_grid,
   St [[rq 4; rq 5; rq 6]; [rq 4; rq 5]] [Warn_frequency_mismatch]).
Proof. by_compute. Qed.

(** ** Arrays *)

Lemma nth_map_seq {A} (g : nat -> A) (n k : nat) (d : A) :
  (k < n)%nat -> nth k (map g (seq 0 n)) d = g k.
Proof.
  intros Hk.
  rewrite (nth_indep _ d (g 0%nat)) by (rewrite length_map, length_seq; lia).
  now rewrite map_nth, seq_nth.
Qed.

Lemma mget_mbuild (p m : nat) (f : nat -> nat -> complex) (i j : nat) :
  (i < p)%nat -> (j < m)%nat -> mget (mbuild p m f) i j = f i j.
Proof.
  intros Hi Hj. unfold mget, mbuild. cbn [mdata].
  rewrite (nth_map_seq (fun i => map (fun j => f i j) (seq 0 m))) by exact Hi.
  now rewrite nth_map_seq.
Qed.

Lemma mbuild_ext (p m : nat) (f g : nat -> nat -> complex) :
  (forall i j, (i < p)%nat -> (j < m)%nat -> f i j = g i j) ->
  mbuild p m f = mbuild p m g.
Proof.
  intros H. unfold mbuild. f_equal.
  apply map_ext_in. intros i Hi. apply in_seq in Hi.
  apply map_ext_in. intros j Hj. apply in_seq in Hj.
  apply H; lia.
Qed.

Lemma slice_build3 (p m n k : nat) (f : nat -> nat -> nat -> complex) :
  (k < n)%nat -> slice (build3 p m n f) k = mbuild p m (fun i j => f i j k).
Proof.
  intros Hk. unfold slice, build3, mbuild, dim0, dim1. cbn.
  f_equal. rewrite map_map. apply map_ext. intros i.
  rewrite map_map. apply map_ext. intros j.
  now rewrite nth_map_seq.
Qed.

(** Every frequency slice of the array built by the loop of [__mul__]
    is the matrix product of the operands' slices. *)
Lemma slice_matmul3 (a b : ndarray3) (n k : nat) :
  (k < n)%nat ->
  slice (matmul3 (dim0 a) (dim1 b) n a b) k = matmul (slice a k) (slice b k).
Proof.
  intros Hk. unfold matmul3, moveaxis_0_2.
  rewrite length_map, length_seq, slice_build3 by exact Hk.
  rewrite nth_map_seq by exact Hk.
  unfold matmul at 2. cbn [slice mshape fst snd].
  apply mbuild_ext. intros i j Hi Hj.
  unfold matmul. cbn [slice mshape fst snd].
  now rewrite mget_mbuild.
Qed.

Lemma shape_matmul3 (p m n : nat) (a b : ndarray3) :
  shape3 (matmul3 p m n a b) = (p, m, n).
Proof.
  unfold matmul3, moveaxis_0_2. cbn. now rewrite length_map, length_seq.
Qed.

Section Multiplication.
Context {tck : Type} (splprep : list Qc -> list complex -> option tck).

(** The product of two FRDs on one ascending grid with compatible
    sizes is the constructor applied to the array the loop builds. *)
Lemma mul_matching (f g : FRD tck) (s : state) (ws : list Qc) :
  heap s !! omega f = Some ws ->
  heap s !! omega g = Some ws ->
  Sorted Qcle ws ->
  ninputs f = noutputs g ->
  __mul__ splprep f (OFRD g) s =
  FRD_init splprep
    (ArgsData (Resp3 (matmul3 (noutputs f) (ninputs g) (length ws)
                              (fresp f) (fresp g)))
              (Freq1 ws))
    (is_smooth f && is_smooth g) s.
Proof.
  intros Hf Hg Hsorted Hsize. unfold __mul__.
  rewrite (bind_Ok _ _ _ _ _
             (convert_frd_match splprep g (omega f) ws ws 1 1 s
                Hf Hsorted Hg eq_refl (all_near_refl ws))).
  rewrite Hsize, Nat.eqb_refl. cbn [negb].
  now rewrite (bind_Ok _ _ _ _ _ (read_Ok _ _ _ Hf)).
Qed.

(** For two FRDs on one frequency grid that is stored in ascending
    order, with [self.ninputs == other.noutputs], the product is an FRD
    on that grid, of shape [(self.noutputs, other.ninputs, F)], whose
    slice at every frequency index is the matrix product of the
    operands' slices; when both operands are smooth the constructor fits
    the product again, and a failure of that fit is the outcome of the
    product; with [self.ninputs != other.noutputs] the product fails
    with the size-mismatch error carrying both counts. *)
Lemma mul_ascending_grid (f g : FRD tck) (s : state) (ws : list Qc) :
  heap s !! omega f = Some ws ->
  heap s !! omega g = Some ws ->
  Sorted Qcle ws ->
  let fr := matmul3 (noutputs f) (ninputs g) (length ws) (fresp f) (fresp g) in
  (ninputs f = noutputs g ->
   (is_smooth f && is_smooth g = true -> is_Some (fit_channels splprep ws fr)) ->
   exists r,
     __mul__ splprep f (OFRD g) s =
       (Ok r, St (heap s ++ [ws]) (warnings s)) /\
     omega r = length (heap s) /\
     shape3 (fresp r) = (noutputs f, ninputs g, length ws) /\
     (forall k, (k < length ws)%nat ->
        slice (fresp r) k = matmul (slice (fresp f) k) (slice (fresp g) k)) /\
     is_smooth r = is_smooth f && is_smooth g) /\
  (ninputs f = noutputs g ->
   is_smooth f && is_smooth g = true -> fit_channels splprep ws fr = None ->
   __mul__ splprep f (OFRD g) s =
     (Raise SplprepError, St (heap s ++ [ws]) (warnings s))) /\
  (ninputs f <> noutputs g ->
   __mul__ splprep f (OFRD g) s =
     (Raise (ValueError_mul_size (ninputs f) (noutputs g)), s)).
Proof.
  intros Hf Hg Hsorted fr.
  assert (Hconv : _convert_to_frd splprep (OFRD g) (omega f) 1 1 s = (Ok g, s)).
  { apply (convert_frd_match splprep g (omega f) ws ws);
      auto using all_near_refl. }
  assert (Hrun : ninputs f = noutputs g ->
                 __mul__ splprep f (OFRD g) s =
                 let s1 := St (heap s ++ [ws]) (warnings s) in
                 if is_smooth f && is_smooth g then
                   match fit_channels splprep ws fr with
                   | Some tbl => (Ok (mkFRD (length (heap s)) fr (Some tbl)), s1)
                   | None => (Raise SplprepError, s1)
                   end
                 else (Ok (mkFRD (length (heap s)) fr None), s1)).
  { intros Hsize. rewrite (mul_matching f g s ws Hf Hg Hsorted Hsize).
    fold fr. apply FRD_init_data. unfold fr, dim2. now rewrite shape_matmul3. }
  split; [|split].
  - intros Hsize Hfit. rewrite (Hrun Hsize). cbv zeta.
    destruct (is_smooth f && is_smooth g) eqn:Hsm.
    + destruct (Hfit eq_refl) as [tbl Htbl]. rewrite Htbl.
      eexists. split; [reflexivity|]. cbn [omega fresp is_smooth ifunc].
      split; [reflexivity|]. split; [apply shape_matmul3|].
      split; [|reflexivity].
      intros k Hk. now apply slice_matmul3.
    + eexists. split; [reflexivity|]. cbn [omega fresp is_smooth ifunc].
      split; [reflexivity|]. split; [apply shape_matmul3|].
      split; [|reflexivity].
      intros k Hk. now apply slice_matmul3.
  - intros Hsize Hsm Hnone. rewrite (Hrun Hsize). cbv zeta.
    now rewrite Hsm, Hnone.
  - intros Hsize. unfold __mul__.
    rewrite (bind_Ok _ _ _ _ _ Hconv).
    apply Nat.eqb_neq in Hsize. rewrite Hsize. reflexivity.
Qed.

End Multiplication.

(** The sample product: a 1x2 system times a 2x1 system on the grid
    [[1]]: [1*3 + 2*4 = 11]. *)
Lemma mul_ascending_grid_sample :
  let f := mkFRD 0 (Arr3 (1, 2, 1)%nat [[[rc 1]; [rc 2]]]) (None : option (list (list unit))) in
  let g := mkFRD 1 (Arr3 (2, 1, 1)%nat [[[rc 3]]; [[rc 4]]]) None in
  let s := St [[rq 1]; [rq 1]] [] in
  exists r,
    __mul__ splprep_unit f (OFRD g) s = (Ok r, St (heap s ++ [[rq 1]]) (warnings s)) /\
    omega r = length (heap s) /\
    shape3 (fresp r) = (noutputs f, ninputs g, length [rq 1]) /\
    (forall k, (k < length [rq 1])%nat ->
       slice (fresp r) k = matmul (slice (fresp f) k) (slice (fresp g) k)) /\
    is_smooth r = is_smooth f && is_smooth g.
Proof.
  intros f g s.
  refine (proj1 (mul_ascending_grid splprep_unit f g s [rq 1] _ _ _) _ _).
  - reflexivity.
  - reflexivity.
  - repeat constructor.
  - reflexivity.
  - discriminate.
Defined.

Lemma mul_sample_value :
  slice (matmul3 1 1 1 (Arr3 (1, 2, 1)%nat [[[rc 1]; [rc 2]]])
                       (Arr3 (2, 1, 1)%nat [[[rc 3]]; [[rc 4]]])) 0
  = Mat (1, 1)%nat [[rc 11]].
Proof. by_compute. Qed.

(** C5, on the code: [frd([1,2],[2,1]) * frd([3,4],[2,1])].  The two
    operands are on the same grid [[2, 1]] and their sizes are
    compatible, yet the product is refused with the grid-mismatch
    error: [_convert_to_frd] sorts the left operand's grid in place
    ([omega.sort()]) and compares the sorted array with the right
    operand's grid in its stored order.  The refused call has also
    changed the left operand, which answered 2 at frequency 1 before
    the call and answers 1 after it.  On the same grid stored as
    [[1, 2]] the product is returned, with the samples [2*4, 1*3]. *)
Theorem mul_same_unsorted_grid :
  let f := siso_at 0 [rc 1; rc 2] in
  let g := siso_at 1 [rc 3; rc 4] in
  let s := St [[rq 2; rq 1]; [rq 2; rq 1]] [] in
  let s' := St [[rq 1; rq 2]; [rq 2; rq 1]] [] in
  (do f <- frd_siso [rc 1; rc 2] [rq 2; rq 1];
   do g <- frd_siso [rc 3; rc 4] [rq 2; rq 1];
   ret (f, g)) empty_state = (Ok (f, g), s) /\
  heap s !! omega f = heap s !! omega g /\
  ninputs f = noutputs g /\
  __mul__ splprep_unit f (OFRD g) s = (Raise NotImplementedError_grid, s') /\
  eval splev_unit f (Scalar (rc 1)) None s = (Ok (RScalar (rc 2)), s) /\
  eval splev_unit f (Scalar (rc 1)) None s' = (Ok (RScalar (rc 1)), s') /\
  __mul__ splprep_unit (siso_at 0 [rc 2; rc 1]) (OFRD (siso_at 1 [rc 4; rc 3]))
          (St [[rq 1; rq 2]; [rq 1; rq 2]] [])
  = (Ok (siso_at 2 [rc 8; rc 3]),
     St [[rq 1; rq 2]; [rq 1; rq 2]; [rq 1; rq 2]] []).
Proof.
  intros f g s s'. repeat split; by_compute.
Qed.

(** ** SISO responses *)

Lemma map_seq_nth2 {A B C} (h : A -> B -> C) (l1 : list A) (l2 : list B)
      (d1 : A) (d2 : B) (n : nat) :
  length l1 = n -> length l2 = n ->
  map (fun k => h (nth k l1 d1) (nth k l2 d2)) (seq 0 n) = zip_with h l1 l2.
Proof.
  revert l2 n. induction l1 as [|x l1 IH]; intros [|y l2] n H1 H2;
    cbn in *; subst n; try discriminate; [reflexivity|].
  cbn. f_equal. rewrite <- seq_shift, map_map.
  apply IH; [reflexivity | now injection H2].
Qed.

Lemma zip_with_map_r {A B C} (h : A -> B -> C) (g : A -> B) (l : list A) :
  zip_with h l (map g l) = map (fun x => h x (g x)) l.
Proof. induction l as [|x l IH]; cbn; [reflexivity | now rewrite IH]. Qed.

Lemma ones3_siso (ch : list complex) :
  ones3 (1, 1, length ch)%nat = reshape_1_1 (map (fun _ => c1) ch).
Proof.
  unfold ones3, reshape_1_1. cbn. rewrite length_map. do 3 f_equal.
  induction ch as [|x ch IH]; cbn; [reflexivity | now rewrite IH].
Qed.

Lemma bix_lt (n k : nat) : (k < n)%nat -> bix n k = k.
Proof.
  intros Hk. unfold bix. destruct (Nat.eqb_spec n 1); [lia | reflexivity].
Qed.

Lemma bdim_same (n : nat) : bdim n n = Some n.
Proof. unfold bdim. now rewrite Nat.eqb_refl. Qed.

Lemma bcast3_siso (h : complex -> complex -> complex)
      (chf chg : list complex) (n : nat) (s : state) :
  length chf = n -> length chg = n ->
  bcast3 h (reshape_1_1 chf) (reshape_1_1 chg) s =
  (Ok (reshape_1_1 (zip_with h chf chg)), s).
Proof.
  intros Hf Hg. unfold bcast3, reshape_1_1, dim0, dim1, dim2.
  cbn [shape3 fst snd]. rewrite Hf, Hg, !bdim_same.
  unfold ret, build3. rewrite length_zip_with, Hf, Hg, Nat.min_id.
  cbn [seq map]. do 5 f_equal.
  rewrite <- (map_seq_nth2 h chf chg c0 c0 n Hf Hg).
  apply map_ext_in. intros k Hk. apply in_seq in Hk.
  rewrite (bix_lt n k) by lia. reflexivity.
Qed.

(** ** Integer powers *)

(** The recursion of [__pow__] on [n] is [|n|] calls deep: any larger
    amount of fuel gives the same outcome. *)
Lemma pow_rec_fuel {tck} (splprep : list Qc -> list complex -> option tck)
      (f : FRD tck) (k : nat) :
  forall (n : Z) (fuel : nat) (s : state),
    Z.abs_nat n = k -> (k < fuel)%nat ->
    pow_rec splprep fuel f n s = pow_rec splprep (S k) f n s.
Proof.
  induction k as [|k IH]; intros n [|fuel] s Hn Hfuel; try lia.
  - replace n with 0%Z by lia. reflexivity.
  - cbn [pow_rec].
    destruct (Z.eqb n 0) eqn:H0; [reflexivity|].
    apply Z.eqb_neq in H0.
    destruct (Z.ltb 0 n) eqn:Hpos.
    + apply Z.ltb_lt in Hpos. unfold bind.
      now rewrite (IH (n - 1)%Z fuel s) by lia.
    + apply Z.ltb_ge in Hpos. unfold bind.
      destruct (read (omega f) s) as [[ws|e] s1]; [|reflexivity].
      destruct (FRD_init splprep _ false s1) as [[unity|e] s2]; [|reflexivity].
      destruct (__truediv__ splprep unity (OFRD f) s2) as [[inverse|e] s3];
        [|reflexivity].
      now rewrite (IH (n + 1)%Z fuel s3) by lia.
Qed.

(** C6, on the code: the recursion of [__pow__] ends in
    [ones(self.fresp.shape)], which the source comments as [unity] but
    which is the unit of the matrix product only for a 1x1 response.
    For the FRD [f] with the 2x2 identity response at frequency 1,
    [f ** 0] is all ones as claimed, but [f ** 1] and [f ** 2] are all
    ones too, while the one-fold and two-fold self-multiplication of [f]
    is the identity response ([f * f] is returned as such by
    [__mul__]). *)
Theorem pow_mimo_all_ones :
  let f := mkFRD 0 identity_2x2 (None : option (list (list unit))) in
  let s := St [[rq 1]] [] in
  frd splprep_unit (ArgsData (Resp3 identity_2x2) (Freq1 [rq 1])) false empty_state
  = (Ok f, s) /\
  __pow__ splprep_unit f (ExpInt 0) s =
    (Ok (mkFRD 1 (ones3 (2, 2, 1)%nat) None), St [[rq 1]; [rq 1]] []) /\
  __pow__ splprep_unit f (ExpInt 1) s =
    (Ok (mkFRD 2 (ones3 (2, 2, 1)%nat) None), St [[rq 1]; [rq 1]; [rq 1]] []) /\
  __pow__ splprep_unit f (ExpInt 2) s =
    (Ok (mkFRD 3 (ones3 (2, 2, 1)%nat) None),
     St [[rq 1]; [rq 1]; [rq 1]; [rq 1]] []) /\
  __mul__ splprep_unit f (OFRD f) s =
    (Ok (mkFRD 1 identity_2x2 None), St [[rq 1]; [rq 1]] []) /\
  ones3 (2, 2, 1)%nat <> fresp f.
Proof.
  intros f s. repeat split; by_compute.
Qed.

(** A positive power of a SISO system whose grid is not stored in
    ascending order is refused, through the in-place sort of
    [_convert_to_frd]: [frd([2,3],[2,1]) ** 1]. *)
Lemma pow_unsorted_grid :
  (do f <- frd_siso [rc 2; rc 3] [rq 2; rq 1];
   __pow__ splprep_unit f (ExpInt 1)) empty_state =
  (Raise NotImplementedError_grid, St [[rq 1; rq 2]; [rq 2; rq 1]] []).
Proof. by_compute. Qed.

Section ConstructorGrid.
Context {tck : Type} (splprep : list Qc -> list complex -> option tck).

(** The last step of the constructor neither moves the grid nor changes
    the store. *)
Lemma FRD_init_tail (om : loc) (fr : ndarray3) (smooth : bool)
      (s s' : state) (f : FRD tck) :
  (if smooth
   then do u <- read om;
        match fit_channels splprep u fr with
        | Some tbl => ret (mkFRD om fr (Some tbl))
        | None => raise SplprepError
        end
   else ret (mkFRD om fr None)) s = (Ok f, s') ->
  s' = s /\ omega f = om /\ fresp f = fr.
Proof.
  destruct smooth; intros H.
  - apply bind_Ok_inv in H as (u & s1 & Hread & H).
    apply read_Ok_inv in Hread as [_ ->].
    destruct (fit_channels splprep u fr); inversion H. auto.
  - inversion H. auto.
Qed.

(** C2 (amended): an FRD sampled from an analytic LTI model stores the
    ascending sort of the requested frequencies (a sorted permutation of
    them), and that construction succeeds when no smoothing is asked for;
    the explicit (response, frequencies) path stores the frequency vector
    exactly as given, and the copy constructor shares the source object's
    grid and leaves the store alone.  No path looks at the sign of a
    frequency. *)
Theorem ctor_grid :
  (forall sys w s,
      FRD_init splprep (ArgsLTI sys w) false s =
      (Ok (mkFRD (length (heap s)) (freqresp3 sys (lti_points sys (sort w))) None),
       St (heap s ++ [sort w]) (warnings s))) /\
  (forall args smooth s f s',
      FRD_init splprep args smooth s = (Ok f, s') ->
      match args with
      | ArgsLTI _ w =>
          heap s' !! omega f = Some (sort w) /\
          Sorted Qcle (sort w) /\ sort w ≡ₚ w
      | ArgsData _ (Freq1 ws) => heap s' !! omega f = Some ws
      | ArgsData _ (Freq0 x) => heap s' !! omega f = Some [x]
      | ArgsOne (OFRD g) => omega f = omega g /\ s' = s
      | _ => False
      end).
Proof.
  split; [reflexivity|].
  intros args smooth s f s' H. unfold FRD_init in H.
  apply bind_Ok_inv in H as ([om fr] & s1 & Hargs & H).
  apply FRD_init_tail in H as (-> & -> & _).
  destruct args as [sys w | d w | o | n].
  - inversion Hargs; subst. cbn [heap].
    split; [apply lookup_alloc|].
    split; [apply sort_Sorted | apply sort_Permutation].
  - destruct d as [c | l | a | nd], w as [x | ws | nd'];
      cbv beta iota zeta in Hargs; try discriminate;
      match type of Hargs with
      | context [Nat.eqb ?a ?b] => destruct (Nat.eqb a b)
      end;
      unfold bind, alloc, ret, raise in Hargs;
      inversion Hargs; subst; cbn [heap]; apply lookup_alloc.
  - destruct o; try discriminate. inversion Hargs; subst. auto.
  - discriminate.
Qed.

End ConstructorGrid.

(** Sampling the unit-gain model at [[3, 1, 2]] stores [[1, 2, 3]]. *)
Lemma ctor_grid_witness :
  let args : ctor_args unit := ArgsLTI unit_gain [rq 3; rq 1; rq 2] in
  let f := mkFRD 0 (reshape_1_1 [c1; c1; c1]) None in
  let s' := St [[rq 1; rq 2; rq 3]] [] in
  frd splprep_unit args false empty_state = (Ok f, s') /\
  heap s' !! omega f = Some (sort [rq 3; rq 1; rq 2]) /\
  Sorted Qcle (sort [rq 3; rq 1; rq 2]) /\
  sort [rq 3; rq 1; rq 2] ≡ₚ [rq 3; rq 1; rq 2].
Proof.
  intros args f s'.
  assert (H : FRD_init splprep_unit args false empty_state = (Ok f, s'))
    by reflexivity.
  split; [exact H|].
  exact (proj2 (ctor_grid splprep_unit) args false empty_state f s' H).
Defined.

(** C2 as stated fails on the explicit-data path:
    [frd([1, 2], [2, -1])] keeps the grid [[2, -1]], which is neither
    ascending nor non-negative. *)
Lemma ctor_grid_counterexample :
  frd_siso [rc 1; rc 2] [rq 2; rq (-1)] empty_state =
    (Ok (siso_at 0 [rc 1; rc 2]), St [[rq 2; rq (-1)]] []) /\
  ~ Sorted Qcle [rq 2; rq (-1)] /\
  ~ Forall (Qcle 0) [rq 2; rq (-1)].
Proof.
  split; [reflexivity|]. split; intros H.
  - inversion H as [|? ? _ Hhd]; subst. inversion Hhd as [|? ? Hle]; subst.
    revert Hle. qc_order.
  - inversion H as [|? ? _ Htl]; subst. inversion Htl as [|? ? Hle _]; subst.
    revert Hle. qc_order.
Qed.

Section Evaluation.
Context {tck : Type} (splprep : list Qc -> list complex -> option tck)
        (splev : complex -> tck -> complex).

(** [frd(d, w)] for a 1-d response and a frequency list of one length. *)
Lemma frd_siso_built (d : list complex) (w : list Qc) (s : state) :
  length d = length w ->
  frd splprep (ArgsData (Resp1 d) (Freq1 w)) false s =
  (Ok (mkFRD (length (heap s)) (reshape_1_1 d) None),
   St (heap s ++ [w]) (warnings s)).
Proof.
  intros H. unfold frd, FRD_init, bind, alloc, ret. cbn.
  rewrite H, Nat.eqb_refl. reflexivity.
Qed.

(** [eval] on an FRD without interpolant. *)
Lemma eval_plain (f : FRD tck) (x : array_like) (l : list complex)
      (sq : option bool) (s : state) (ws : list Qc) :
  ifunc f = None -> atleast_1d x = Some l -> heap s !! omega f = Some ws ->
  eval splev f x sq s =
  if existsb (fun c => gt0 (im c)) l then (Raise ValueError_real_omega, s)
  else if Nat.ltb (count_true (isin ws l)) (length l)
       then (Raise ValueError_not_in_list, s)
       else _process_frequency_response f x
              (mask_select (isin ws l) (fresp f)) sq s.
Proof.
  intros Hi Hx Hws. unfold eval. rewrite Hx.
  destruct (existsb _ l); [reflexivity|].
  rewrite Hi. unfold bind, read. rewrite Hws.
  destruct (Nat.ltb _ _); reflexivity.
Qed.

(** The real-valued check of [eval] fires on a positive imaginary part. *)
Lemma eval_positive_imag (f : FRD tck) (x : array_like) (l : list complex)
      (sq : option bool) (s : state) :
  atleast_1d x = Some l -> Exists (fun c => (0 < im c)%Qc) l ->
  eval splev f x sq s = (Raise ValueError_real_omega, s).
Proof.
  intros Hx Hex. unfold eval. rewrite Hx.
  replace (existsb _ l) with true; [reflexivity|].
  symmetry. apply existsb_exists. apply Exists_exists in Hex as (c & Hc & Hpos).
  exists c. split; [first [exact Hc | apply list_elem_of_In; exact Hc]|].
  unfold gt0. now apply bool_decide_eq_true.
Qed.

(** It does not fire when no imaginary part is positive. *)
Lemma eval_check_passes (l : list complex) :
  Forall (fun c => (im c <= 0)%Qc) l ->
  existsb (fun c => gt0 (im c)) l = false.
Proof.
  intros H. induction H as [|c l Hc _ IH]; [reflexivity|].
  cbn. rewrite IH. unfold gt0.
  rewrite bool_decide_eq_false_2; [reflexivity|]. now apply Qcle_not_lt.
Qed.

(** C7: [frd([1.0, 1.0, 0.5], [1, 10, 100])], built without smoothing in
    any state, returns exactly 1 from [eval(10)] and raises the
    not-in-list error from [eval(2)]. *)
Theorem eval_scenario (s : state) :
  exists f s',
    frd splprep (ArgsData (Resp1 [rc 1; rc 1; RtoC (q 1 2)])
                          (Freq1 [rq 1; rq 10; rq 100])) false s = (Ok f, s') /\
    eval splev f (Scalar (rc 10)) None s' = (Ok (RScalar (rc 1)), s') /\
    eval splev f (Scalar (rc 2)) None s' = (Raise ValueError_not_in_list, s').
Proof.
  eexists _, _. split; [apply frd_siso_built; reflexivity|].
  split.
  - rewrite (eval_plain _ _ [rc 10] _ _ [rq 1; rq 10; rq 100])
      by (reflexivity || apply lookup_alloc).
    replace (isin [rq 1; rq 10; rq 100] [rc 10]) with [false; true; false]
      by (vm_compute; reflexivity).
    reflexivity.
  - rewrite (eval_plain _ _ [rc 2] _ _ [rq 1; rq 10; rq 100])
      by (reflexivity || apply lookup_alloc).
    replace (isin [rq 1; rq 10; rq 100] [rc 2]) with [false; false; false]
      by (vm_compute; reflexivity).
    reflexivity.
Qed.

(** C3, on the code: a request whose imaginary part is negative passes
    the real-valued check.  On [frd([1.0, 1.0, 0.5], [1, 10, 100])],
    [eval(10 - 1j)] raises the not-in-list error, while [eval(10 + 1j)]
    raises the real-valued-omega error. *)
Theorem eval_negative_imag (s : state) :
  exists f s',
    frd splprep (ArgsData (Resp1 [rc 1; rc 1; RtoC (q 1 2)])
                          (Freq1 [rq 1; rq 10; rq 100])) false s = (Ok f, s') /\
    eval splev f (Scalar (mkC (rq 10) (rq (-1)))) None s' =
      (Raise ValueError_not_in_list, s') /\
    eval splev f (Scalar (mkC (rq 10) (rq 1))) None s' =
      (Raise ValueError_real_omega, s').
Proof.
  eexists _, _. split; [apply frd_siso_built; reflexivity|].
  split.
  - rewrite (eval_plain _ _ [mkC (rq 10) (rq (-1))] _ _ [rq 1; rq 10; rq 100])
      by (reflexivity || apply lookup_alloc).
    replace (isin [rq 1; rq 10; rq 100] [mkC (rq 10) (rq (-1))])
      with [false; false; false] by (vm_compute; reflexivity).
    reflexivity.
  - apply (eval_positive_imag _ _ [mkC (rq 10) (rq 1)]); [reflexivity|].
    constructor. qc_order.
Qed.

End Evaluation.

Section Call.
Context {tck : Type} (splev : complex -> tck -> complex).

Lemma real_parts_check (l : list complex) :
  (Forall (fun c => re c = 0%Qc) l ->
   existsb (fun c => abs_gt0 (re c)) l = false) /\
  (Exists (fun c => re c <> 0%Qc) l ->
   existsb (fun c => abs_gt0 (re c)) l = true).
Proof.
  split; intros H.
  - induction H as [|c l Hc _ IH]; [reflexivity|].
    cbn. now rewrite IH, abs_gt0_false.
  - induction H as [c l Hc | c l _ IH]; cbn.
    + now rewrite abs_gt0_true.
    + rewrite IH. apply orb_true_r.
Qed.

(** C8: called with a scalar or 1-d argument [s], an FRD answers as
    [eval] does on the imaginary parts of [s] when every entry of [s] has
    zero real part, and raises the purely-imaginary error when some entry
    has a non-zero real part. *)
Theorem call_imaginary_only (f : FRD tck) (x : array_like) (l : list complex)
        (sq : option bool) (s : state) :
  atleast_1d x = Some l ->
  (Forall (fun c => re c = 0%Qc) l ->
   __call__ splev f (Some x) sq s =
   let (o, s') := eval splev f (imag_part x) sq s in
   (match o with Ok r => Ok (inr r) | Raise e => Raise e end, s')) /\
  (Exists (fun c => re c <> 0%Qc) l ->
   __call__ splev f (Some x) sq s = (Raise ValueError_imaginary, s)).
Proof.
  intros Hx. unfold __call__. rewrite Hx.
  destruct (real_parts_check l) as [Hzero Hnonzero].
  split; intros H.
  - rewrite (Hzero H). unfold bind, ret.
    destruct (eval splev f (imag_part x) sq s) as [[r|e] s']; reflexivity.
  - rewrite (Hnonzero H). reflexivity.
Qed.

End Call.

(** On [frd([1.0, 1.0, 0.5], [1, 10, 100])], the call at [10j] is
    [eval(10)], and the call at [2 + 10j] is refused. *)
Lemma call_imaginary_only_witness :
  let f := siso_at 0 [rc 1; rc 1; RtoC (q 1 2)] in
  let s := St [[rq 1; rq 10; rq 100]] [] in
  (__call__ splev_unit f (Some (Scalar (mkC 0%Qc (rq 10)))) None s =
   let (o, s') := eval splev_unit f (Scalar (rc 10)) None s in
   (match o with Ok r => Ok (inr r) | Raise e => Raise e end, s')) /\
  __call__ splev_unit f (Some (Scalar (mkC (rq 2) (rq 10)))) None s =
  (Raise ValueError_imaginary, s).
Proof.
  intros f s. split.
  - refine (proj1 (call_imaginary_only splev_unit f
                     (Scalar (mkC 0%Qc (rq 10))) [mkC 0%Qc (rq 10)] None s _) _).
    + reflexivity.
    + repeat constructor.
  - refine (proj2 (call_imaginary_only splev_unit f
                     (Scalar (mkC (rq 2) (rq 10))) [mkC (rq 2) (rq 10)] None s _) _).
    + reflexivity.
    + constructor. qc_order.
Defined.

Lemma call_sample_value :
  __call__ splev_unit (siso_at 0 [rc 1; rc 1; RtoC (q 1 2)])
           (Some (Scalar (mkC 0%Qc (rq 10)))) None
           (St [[rq 1; rq 10; rq 100]] []) =
  (Ok (inr (RScalar (rc 1))), St [[rq 1; rq 10; rq 100]] []).
Proof. by_compute. Qed.

(** ** Membership masks *)

Lemma existsb_Permutation {A} (P : A -> bool) (l l' : list A) :
  l ≡ₚ l' -> existsb P l = existsb P l'.
Proof.
  induction 1 as [|x l l' _ IH|x y l|l l' l'' _ IH1 _ IH2]; cbn.
  - reflexivity.
  - now rewrite IH.
  - now rewrite !orb_assoc, (orb_comm (P y)).
  - now rewrite IH1.
Qed.

Lemma isin_Permutation (ws : list Qc) (req req' : list complex) :
  req ≡ₚ req' -> isin ws req = isin ws req'.
Proof.
  intros H. unfold isin. apply map_ext. intros w.
  now apply existsb_Permutation.
Qed.

Lemma count_true_map {A} (P : A -> bool) (l : list A) :
  count_true (map P l) = length (List.filter P l).
Proof.
  unfold count_true. induction l as [|x l IH]; [reflexivity|].
  cbn [map List.filter]. rewrite filter_cons.
  destruct (P x).
  - rewrite decide_True by reflexivity. cbn [length]. now f_equal.
  - rewrite decide_False by discriminate. exact IH.
Qed.

Lemma RtoC_inj (a b : Qc) : RtoC a = RtoC b -> a = b.
Proof. now inversion 1. Qed.

(** Every distinct requested member selects at least one stored sample. *)
Lemma isin_covers (ws : list Qc) (req : list complex) :
  List.NoDup req ->
  (forall c, In c req -> exists w, In w ws /\ c = RtoC w) ->
  (length req <= count_true (isin ws req))%nat.
Proof.
  intros Hnd Hmem. unfold isin. rewrite count_true_map.
  rewrite <- (length_map RtoC).
  apply NoDup_incl_length; [exact Hnd|].
  intros c Hc. destruct (Hmem c Hc) as (w & Hw & ->).
  apply in_map, filter_In. split; [exact Hw|].
  apply existsb_exists. exists (RtoC w). split; [exact Hc|].
  now apply bool_decide_eq_true.
Qed.

(** A frequency that is not stored selects nothing. *)
Lemma isin_absent (ws : list Qc) (w : Qc) :
  ~ In w ws -> count_true (isin ws [RtoC w]) = 0%nat.
Proof.
  intros Hw. unfold isin. rewrite count_true_map.
  induction ws as [|x ws IH]; [reflexivity|].
  cbn [List.filter existsb].
  rewrite bool_decide_eq_false_2.
  - apply IH. intros H. apply Hw. now right.
  - intros H. apply Hw. left. now apply RtoC_inj.
Qed.

Lemma nth_map_default {A B} (h : A -> B) (l : list A) (d : A) (d' : B) (n : nat) :
  h d = d' -> nth n (map h l) d' = h (nth n l d).
Proof. intros <-. apply map_nth. Qed.

Lemma NoDup_map_RtoC (ws : list Qc) :
  List.NoDup ws -> List.NoDup (map RtoC ws).
Proof.
  induction 1 as [|w ws Hw _ IH]; cbn; constructor; [|exact IH].
  intros Hin. apply in_map_iff in Hin as (w' & Heq & Hw').
  apply RtoC_inj in Heq as ->. contradiction.
Qed.

(** The stored frequencies picked by the mask, as complex numbers, are
    among the requested ones. *)
Lemma isin_picked (ws : list Qc) (req : list complex) :
  incl (map RtoC
          (List.filter (fun w => existsb (fun c => bool_decide (RtoC w = c)) req) ws))
       req.
Proof.
  intros c Hc. apply in_map_iff in Hc as (w & <- & Hw).
  apply filter_In in Hw as [_ Hex].
  apply existsb_exists in Hex as (c & Hc & Heq).
  apply bool_decide_eq_true in Heq. now rewrite Heq.
Qed.

Lemma lookup_map {A B} (g : A -> B) (l : list A) (n : nat) :
  map g l !! n = option_map g (l !! n).
Proof. revert n. induction l as [|x l IH]; intros [|n]; cbn; auto. Qed.

(** The positions at which a mask is true, in ascending order: boolean
    selection keeps the entries at these positions, in this order. *)
Lemma select_positions {A} (mask : list bool) :
  exists ks : list nat,
    StronglySorted lt ks /\
    (forall k, In k ks <-> nth k mask false = true) /\
    length ks = count_true mask /\
    forall (l : list A) (d : A) (n k : nat),
      ks !! n = Some k -> nth n (select mask l) d = nth k l d.
Proof.
  induction mask as [|b mask (ks & Hsorted & Hin & Hlen & Hsel)].
  - exists []. split; [constructor|]. split; [|split].
    + intros [|k]; cbn; split; intros H; try contradiction; discriminate.
    + reflexivity.
    + intros l d n k H. discriminate.
  - assert (HS : StronglySorted lt (map S ks)).
    { clear -Hsorted. induction Hsorted as [|k ks _ IH Hk]; cbn; constructor.
      - exact IH.
      - apply Forall_forall. intros x Hx. apply in_map_iff in Hx as (y & <- & Hy).
        rewrite Forall_forall in Hk. specialize (Hk y Hy). lia. }
    assert (HinS : forall k, In (S k) (map S ks) <-> In k ks).
    { intros k. rewrite in_map_iff. split.
      - intros (y & [= ->] & Hy). exact Hy.
      - intros Hk. now exists k. }
    assert (H0 : ~ In 0%nat (map S ks)).
    { rewrite in_map_iff. intros (y & Hy & _). discriminate. }
    destruct b.
    + exists (0%nat :: map S ks). split; [|split; [|split]].
      * constructor; [exact HS|]. apply Forall_forall. intros x Hx.
        apply in_map_iff in Hx as (y & <- & _). lia.
      * intros [|k]; cbn [nth In].
        -- split; auto.
        -- rewrite <- Hin, <- HinS. split; [intros [H|H]; [discriminate|exact H]|auto].
      * unfold count_true in *. rewrite filter_cons_True by reflexivity.
        cbn [length]. now rewrite length_map, Hlen.
      * intros [|x l] d n k Hn.
        -- cbn [select]. now destruct n, k.
        -- cbn [select]. destruct n as [|n].
           ++ cbn in Hn. now injection Hn as <-.
           ++ change (map S ks !! n = Some k) in Hn.
              rewrite lookup_map in Hn.
              destruct (ks !! n) as [k'|] eqn:Hk'; [|discriminate].
              cbn in Hn. injection Hn as <-. cbn [nth]. now apply Hsel.
    + exists (map S ks). split; [exact HS|]. split; [|split].
      * intros [|k]; cbn [nth].
        -- split; [intros H; now apply H0 in H | discriminate].
        -- now rewrite <- Hin, <- HinS.
      * unfold count_true in *. rewrite filter_cons_False by discriminate.
        now rewrite length_map, Hlen.
      * intros [|x l] d n k Hn.
        -- cbn [select]. now destruct n, k.
        -- cbn [select]. rewrite lookup_map in Hn.
           destruct (ks !! n) as [k'|] eqn:Hk'; [|discriminate].
           cbn in Hn. injection Hn as <-. cbn [nth]. now apply Hsel.
Qed.

(** The mask of [np.isin] is true at the positions of the stored
    frequencies that are requested. *)
Lemma isin_nth (ws : list Qc) (req : list complex) (k : nat) :
  nth k (isin ws req) false = true <->
  exists w, ws !! k = Some w /\ In (RtoC w) req.
Proof.
  unfold isin. revert k. induction ws as [|w ws IH]; intros [|k]; cbn [map nth].
  - split; [discriminate | intros (w & H & _); discriminate].
  - split; [discriminate | intros (w & H & _); discriminate].
  - split.
    + intros H. apply existsb_exists in H as (c & Hc & Heq).
      apply bool_decide_eq_true in Heq. subst c. now exists w.
    + intros (w' & [= <-] & Hw). apply existsb_exists. exists (RtoC w).
      split; [exact Hw | now apply bool_decide_eq_true].
  - apply IH.
Qed.

Lemma isin_count_le (ws : list Qc) (req : list complex) :
  List.NoDup ws -> (count_true (isin ws req) <= length req)%nat.
Proof.
  intros Hnd. unfold isin. rewrite count_true_map.
  rewrite <- (length_map RtoC).
  apply NoDup_incl_length; [|apply isin_picked].
  apply NoDup_map_RtoC. now apply List.NoDup_filter.
Qed.

Section Permuted.
Context {tck : Type} (splev : complex -> tck -> complex).

(** The shaping of a result for an array request does not look at the
    requested values, and never fails. *)
Lemma process_array (f : FRD tck) (req : list complex) (out : ndarray3)
      (sq : option bool) (s : state) :
  exists r, forall req',
    _process_frequency_response f (Array1 req') out sq s = (Ok r, s).
Proof.
  unfold _process_frequency_response.
  destruct sq as [[|]|];
    destruct (Nat.eqb (noutputs f) 1 && Nat.eqb (ninputs f) 1);
    try (eexists; intros; reflexivity).
  destruct (Nat.eqb (dim0 out) 1), (Nat.eqb (dim1 out) 1),
    (Nat.eqb (dim2 out) 1); eexists; intros; reflexivity.
Qed.

(** C10: on an FRD without interpolant, [eval] at a list of distinct
    frequencies that are all stored succeeds and returns the response
    slices in stored-grid order: with [ks] the ascending list of the
    stored positions whose frequency is requested, sample [n] of the
    returned array is the stored sample at position [ks[n]], for every
    output and input.  The returned array has as many samples as there
    are such positions (as many as requested frequencies when the
    stored grid has no repeated frequency), and [eval] returns the same
    for every permutation of the request and every [squeeze] setting. *)
Theorem eval_permutation (f : FRD tck) (s : state) (ws : list Qc)
        (req req' : list complex) :
  ifunc f = None ->
  heap s !! omega f = Some ws ->
  List.NoDup req ->
  (forall c, In c req -> exists w, In w ws /\ c = RtoC w) ->
  req ≡ₚ req' ->
  exists (ks : list nat) (out : ndarray3),
    StronglySorted lt ks /\
    (forall k, In k ks <-> exists w, ws !! k = Some w /\ In (RtoC w) req) /\
    (List.NoDup ws -> length ks = length req) /\
    shape3 out = (noutputs f, ninputs f, length ks) /\
    (forall i j n k, ks !! n = Some k ->
       get3 out i j n = get3 (fresp f) i j k) /\
    eval splev f (Array1 req) (Some false) s = (Ok (RArray out), s) /\
    forall sq,
      eval splev f (Array1 req') sq s = eval splev f (Array1 req) sq s /\
      exists r, eval splev f (Array1 req) sq s = (Ok r, s) /\
                _process_frequency_response f (Array1 req) out sq s = (Ok r, s).
Proof.
  intros Hi Hws Hnd Hmem Hperm.
  set (mask := isin ws req).
  set (out := mask_select mask (fresp f)).
  assert (Hreal : existsb (fun c => gt0 (im c)) req = false).
  { apply eval_check_passes. apply Forall_forall. intros c Hc.
    destruct (Hmem c Hc) as (w & _ & ->). apply Qcle_refl. }
  assert (Hcover : (length req <= count_true mask)%nat) by now apply isin_covers.
  assert (Hcount : Nat.ltb (count_true mask) (length req) = false)
    by now apply Nat.ltb_ge.
  assert (Heval : forall sq, eval splev f (Array1 req) sq s =
                             _process_frequency_response f (Array1 req) out sq s).
  { intros sq.
    rewrite (eval_plain splev f (Array1 req) req sq s ws Hi eq_refl Hws).
    fold mask. now rewrite Hreal, Hcount. }
  destruct (select_positions (A := complex) mask) as (ks & Hsorted & Hin & Hlen & Hsel).
  exists ks, out. split; [exact Hsorted|]. split; [|split; [|split; [|split; [|split]]]].
  - intros k. rewrite Hin. apply isin_nth.
  - intros Hndws. rewrite Hlen. apply Nat.le_antisymm; [|exact Hcover].
    now apply isin_count_le.
  - unfold out, mask_select. cbn [shape3]. now rewrite Hlen.
  - intros i j n k Hn. unfold out, mask_select, get3. cbn [data3].
    rewrite (nth_map_default (map (select mask)) _ [] [] i eq_refl).
    rewrite (nth_map_default (select mask) _ [] [] j) by (now destruct mask).
    now apply Hsel.
  - now rewrite Heval.
  - intros sq. split.
    + rewrite Heval.
      rewrite (eval_plain splev f (Array1 req') req' sq s ws Hi eq_refl Hws).
      rewrite <- (existsb_Permutation _ _ _ Hperm), Hreal.
      rewrite <- (isin_Permutation ws _ _ Hperm). fold mask. fold out.
      rewrite <- (Permutation_length Hperm), Hcount.
      destruct (process_array f req out sq s) as [r Hr].
      now rewrite (Hr req'), (Hr req).
    + destruct (process_array f req out sq s) as [r Hr].
      exists r. rewrite Heval. split; apply Hr.
Qed.

End Permuted.

(** On [frd([1.0, 1.0, 0.5], [1, 10, 100])], [eval([100, 1])] and
    [eval([1, 100])] both return [[1.0, 0.5]]: the stored samples at
    the positions 0 and 2, in that order. *)
Lemma eval_permutation_witness :
  let f := siso_at 0 [rc 1; rc 1; RtoC (q 1 2)] in
  let s := St [[rq 1; rq 10; rq 100]] [] in
  let ws := [rq 1; rq 10; rq 100] in
  let req := [rc 100; rc 1] in
  let req' := [rc 1; rc 100] in
  (exists (ks : list nat) (out : ndarray3),
    StronglySorted lt ks /\
    (forall k, In k ks <-> exists w, ws !! k = Some w /\ In (RtoC w) req) /\
    (List.NoDup ws -> length ks = length req) /\
    shape3 out = (noutputs f, ninputs f, length ks) /\
    (forall i j n k, ks !! n = Some k ->
       get3 out i j n = get3 (fresp f) i j k) /\
    eval splev_unit f (Array1 req) (Some false) s = (Ok (RArray out), s) /\
    forall sq,
      eval splev_unit f (Array1 req') sq s = eval splev_unit f (Array1 req) sq s /\
      exists r, eval splev_unit f (Array1 req) sq s = (Ok r, s) /\
                _process_frequency_response f (Array1 req) out sq s = (Ok r, s)) /\
  eval splev_unit f (Array1 req) None s = (Ok (RVector [rc 1; RtoC (q 1 2)]), s) /\
  eval splev_unit f (Array1 req') None s = (Ok (RVector [rc 1; RtoC (q 1 2)]), s) /\
  eval splev_unit f (Array1 req) (Some false) s =
    (Ok (RArray (Arr3 (1, 1, 2)%nat [[[rc 1; RtoC (q 1 2)]]])), s).
Proof.
  intros f s ws req req'. split; [|repeat split; by_compute].
  apply (eval_permutation splev_unit f s ws req req').
  - reflexivity.
  - reflexivity.
  - apply NoDup_ListNoDup. by_compute.
  - intros c Hc. cbn in Hc. decompose [or] Hc; try contradiction; subst c.
    + exists (rq 100). cbn. auto.
    + exists (rq 1). cbn. auto.
  - apply perm_swap.
Defined.


Section Smoothing.
Context {tck : Type} (splprep : list Qc -> list complex -> option tck)
        (splev : complex -> tck -> complex).

Lemma FRD_init_data_inv (a : ndarray3) (ws : list Qc) (smooth : bool)
      (s s' : state) (r : FRD tck) :
  FRD_init splprep (ArgsData (Resp3 a) (Freq1 ws)) smooth s = (Ok r, s') ->
  s' = St (heap s ++ [ws]) (warnings s) /\
  omega r = length (heap s) /\ fresp r = a /\ is_smooth r = smooth.
Proof.
  intros H. pose proof (FRD_init_ifunc splprep _ _ _ _ _ H) as Hsm.
  unfold FRD_init in H.
  apply bind_Ok_inv in H as ([om fr] & s1 & Hargs & H).
  apply FRD_init_tail in H as (-> & Hom & Hfr).
  cbv beta iota zeta in Hargs.
  destruct (Nat.eqb (dim2 a) (length ws)); [|discriminate].
  unfold bind, alloc, ret in Hargs. inversion Hargs; subst. auto.
Qed.

Lemma convert_frd_inv (g r : FRD tck) (l : loc) (i o : nat) (s s' : state) :
  _convert_to_frd splprep (OFRD g) l i o s = (Ok r, s') -> r = g.
Proof.
  unfold _convert_to_frd. intros H.
  apply bind_Ok_inv in H as (ws & s1 & _ & H).
  apply bind_Ok_inv in H as ([] & s2 & _ & H).
  apply bind_Ok_inv in H as (ws' & s3 & _ & H).
  apply bind_Ok_inv in H as (sw & s4 & _ & H).
  destruct (_ && _); inversion H. reflexivity.
Qed.

(** A sum is built by a constructor call without [smooth]. *)
Lemma add_result (f : FRD tck) (o : operand tck) (s s' : state) (r : FRD tck) :
  __add__ splprep f o s = (Ok r, s') ->
  is_smooth r = false /\ exists ws, heap s' !! omega r = Some ws.
Proof.
  unfold __add__. intros H.
  apply bind_Ok_inv in H as (u & s1 & _ & H).
  apply bind_Ok_inv in H as (other & s2 & _ & H).
  destruct (negb (Nat.eqb (ninputs f) (ninputs other))); [discriminate|].
  destruct (negb (Nat.eqb (noutputs f) (noutputs other))); [discriminate|].
  apply bind_Ok_inv in H as (sum & s3 & _ & H).
  apply bind_Ok_inv in H as (oo & s4 & _ & H).
  apply FRD_init_data_inv in H as (-> & Hom & _ & Hsm).
  split; [exact Hsm|]. exists oo. rewrite Hom. apply lookup_alloc.
Qed.

Lemma eval_absent (r : FRD tck) (s : state) (ws : list Qc) (w : Qc)
      (sq : option bool) :
  ifunc r = None -> heap s !! omega r = Some ws -> ~ In w ws ->
  eval splev r (Scalar (RtoC w)) sq s = (Raise ValueError_not_in_list, s).
Proof.
  intros Hi Hws Hw.
  rewrite (eval_plain splev r (Scalar (RtoC w)) [RtoC w] sq s ws Hi eq_refl Hws).
  rewrite (eval_check_passes [RtoC w]) by (repeat constructor; apply Qcle_refl).
  now rewrite (isin_absent ws w Hw).
Qed.

Lemma is_smooth_false (r : FRD tck) : is_smooth r = false -> ifunc r = None.
Proof. unfold is_smooth. now destruct (ifunc r). Qed.

(** C9: the sum or difference of two FRDs carries no interpolant,
    whatever the operands carry, and its [eval] at a frequency outside
    its stored grid raises the not-in-list error; the product of two FRDs
    is smooth exactly when both operands are. *)
Theorem sum_not_smooth (f g : FRD tck) (s : state) :
  (forall r s',
      __add__ splprep f (OFRD g) s = (Ok r, s') \/
      __sub__ splprep f (OFRD g) s = (Ok r, s') ->
      ifunc r = None /\
      exists ws, heap s' !! omega r = Some ws /\
                 forall w sq, ~ In w ws ->
                   eval splev r (Scalar (RtoC w)) sq s' =
                   (Raise ValueError_not_in_list, s')) /\
  (forall r s',
      __mul__ splprep f (OFRD g) s = (Ok r, s') ->
      is_smooth r = is_smooth f && is_smooth g).
Proof.
  split.
  - intros r s' H.
    assert (Hres : is_smooth r = false /\ exists ws, heap s' !! omega r = Some ws).
    { destruct H as [H | H].
      - exact (add_result _ _ _ _ _ H).
      - unfold __sub__ in H.
        apply bind_Ok_inv in H as (no & s1 & _ & H).
        exact (add_result _ _ _ _ _ H). }
    destruct Hres as [Hsm [ws Hws]].
    apply is_smooth_false in Hsm.
    split; [exact Hsm|]. exists ws. split; [exact Hws|].
    intros w sq Hw. now apply (eval_absent r s' ws).
  - intros r s' H. unfold __mul__ in H.
    apply bind_Ok_inv in H as (other & s1 & Hconv & H).
    apply convert_frd_inv in Hconv as ->.
    destruct (negb (Nat.eqb (ninputs f) (noutputs g))); [discriminate|].
    apply bind_Ok_inv in H as (ws & s2 & _ & H).
    exact (FRD_init_ifunc splprep _ _ _ _ _ H).
Qed.

End Smoothing.

(** Two smooth SISO objects on the grid [[1, 2]]: their sum and their
    difference are not smooth, their product is. *)
Lemma sum_not_smooth_witness :
  let f := mkFRD 0 (reshape_1_1 [rc 1; rc 2]) (Some [[tt]]) in
  let g := mkFRD 1 (reshape_1_1 [rc 3; rc 4]) (Some [[tt]]) in
  let s := St [[rq 1; rq 2]; [rq 1; rq 2]] [] in
  let s' := St [[rq 1; rq 2]; [rq 1; rq 2]; [rq 1; rq 2]] [] in
  let r := mkFRD 2 (reshape_1_1 [rc 4; rc 6]) None in
  let p := mkFRD 2 (reshape_1_1 [rc 3; rc 8]) (Some [[tt]]) in
  __add__ splprep_unit f (OFRD g) s = (Ok r, s') /\
  __mul__ splprep_unit f (OFRD g) s = (Ok p, s') /\
  (ifunc r = None /\
   exists ws, heap s' !! omega r = Some ws /\
              forall w sq, ~ In w ws ->
                eval splev_unit r (Scalar (RtoC w)) sq s' =
                (Raise ValueError_not_in_list, s')) /\
  is_smooth p = is_smooth f && is_smooth g.
Proof.
  intros f g s s' r p.
  assert (Hadd : __add__ splprep_unit f (OFRD g) s = (Ok r, s')) by by_compute.
  assert (Hmul : __mul__ splprep_unit f (OFRD g) s = (Ok p, s')) by by_compute.
  split; [exact Hadd|]. split; [exact Hmul|]. split.
  - exact (proj1 (sum_not_smooth splprep_unit splev_unit f g s) r s'
             (or_introl Hadd)).
  - exact (proj2 (sum_not_smooth splprep_unit splev_unit f g s) p s' Hmul).
Defined.

Lemma sub_not_smooth_value :
  __sub__ splprep_unit
    (mkFRD 0 (reshape_1_1 [rc 1; rc 2]) (Some [[tt]]))
    (OFRD (mkFRD 1 (reshape_1_1 [rc 3; rc 4]) (Some [[tt]])))
    (St [[rq 1; rq 2]; [rq 1; rq 2]] []) =
  (Ok (mkFRD 3 (reshape_1_1 [rc (-2); rc (-2)]) None),
   St [[rq 1; rq 2]; [rq 1; rq 2]; [rq 1; rq 2]; [rq 1; rq 2]] []).
Proof. by_compute. Qed.

(** ** Feedback *)

(** [feedback] never reads its [sign] argument. *)
Lemma feedback_sign_unused {tck} (splprep : list Qc -> list complex -> option tck)
      (f : FRD tck) (o : operand tck) (sign sign' : Qc) (s : state) :
  feedback splprep f o sign s = feedback splprep f o sign' s.
Proof. reflexivity. Qed.

(** C1, on the code: for [self = frd([1], [1])] and [other = frd([2], [1])]
    the call [self.feedback(other, sign)] returns the response [1/3] for
    [sign = +1] as it does for [sign = -1]; the closed loop
    [self * inv(I - sign * other * self)] is [1/3] for [sign = -1] and
    [-1] for [sign = +1]. *)
Theorem feedback_ignores_sign :
  let f := siso_at 0 [rc 1] in
  let g := siso_at 1 [rc 2] in
  let s := St [[rq 1]; [rq 1]] [] in
  let r := mkFRD 2 (reshape_1_1 [RtoC (q 1 3)]) None in
  let s' := St [[rq 1]; [rq 1]; [rq 1]] [] in
  feedback splprep_unit f (OFRD g) (rq 1) s = (Ok r, s') /\
  feedback splprep_unit f (OFRD g) (rq (-1)) s = (Ok r, s') /\
  closed_loop_spec (slice (fresp f) 0) (slice (fresp g) 0) (rq (-1)) =
    Some (Mat (1, 1)%nat [[RtoC (q 1 3)]]) /\
  closed_loop_spec (slice (fresp f) 0) (slice (fresp g) 0) (rq 1) =
    Some (Mat (1, 1)%nat [[rc (-1)]]).
Proof.
  intros f g s r s'.
  split; [by_compute|]. split; [by_compute|]. split; by_compute.
Qed.

(** The same on a 2x2 system with the identity in the loop: the code's
    answer for [sign = +1] is the negative-feedback closed loop. *)
Lemma feedback_mimo_value :
  let f := mkFRD 0 (Arr3 (2, 2, 1)%nat [[[rc 1]; [rc 2]]; [[rc 3]; [rc 4]]])
                 (None : option (list (list unit))) in
  let g := mkFRD 1 identity_2x2 (None : option (list (list unit))) in
  let s := St [[rq 1]; [rq 1]] [] in
  (exists s', feedback splprep_unit f (OFRD g) (rq 1) s =
     (Ok (mkFRD 2 (Arr3 (2, 2, 1)%nat
                     [[[RtoC (q (-1) 4)]; [RtoC (q 1 2)]];
                      [[RtoC (q 3 4)]; [RtoC (q 1 2)]]]) None), s')) /\
  closed_loop_spec (slice (fresp f) 0) (slice (fresp g) 0) (rq (-1)) =
    Some (Mat (2, 2)%nat [[RtoC (q (-1) 4); RtoC (q 1 2)];
                          [RtoC (q 3 4); RtoC (q 1 2)]]).
Proof.
  intros f g s. split.
  - exists (St [[rq 1]; [rq 1]; [rq 1]] []). by_compute.
  - by_compute.
Qed.

(** * Further properties of the operators *)

(** ** Coercion of operands *)

Lemma length_sort (ws : list Qc) : length (sort ws) = length ws.
Proof. apply Permutation_length, sort_Permutation. Qed.

Section Coercion.
Context {tck : Type} (splprep : list Qc -> list complex -> option tck).

(** The FRD branch of [_convert_to_frd], run on a valid store. *)
Lemma convert_frd_run (g : FRD tck) (l : loc) (i o : nat) (s : state)
      (ws sw : list Qc) :
  heap s !! l = Some ws ->
  <[l := sort ws]> (heap s) !! omega g = Some sw ->
  _convert_to_frd splprep (OFRD g) l i o s =
    (if Nat.eqb (length ws) (length sw) && all_near (sort ws) sw
     then Ok g else Raise NotImplementedError_grid,
     St (<[l := sort ws]> (heap s)) (warnings s)).
Proof.
  intros Hl Hg.
  assert (Hl' : <[l := sort ws]> (heap s) !! l = Some (sort ws)).
  { apply list_lookup_insert_eq. now apply lookup_lt_Some in Hl. }
  unfold _convert_to_frd.
  rewrite (bind_Ok _ _ _ _ _ (read_Ok _ _ _ Hl)).
  unfold bind at 1. unfold write at 1.
  set (s1 := St (<[l := sort ws]> (heap s)) (warnings s)).
  rewrite (bind_Ok _ _ s1 s1 (sort ws)) by (now apply read_Ok).
  rewrite (bind_Ok _ _ s1 s1 sw) by (now apply read_Ok).
  rewrite length_sort.
  now destruct (Nat.eqb (length ws) (length sw) && all_near (sort ws) sw).
Qed.

Lemma lookup_after_sort (h : list (list Qc)) (l l' : loc) (ws : list Qc) :
  h !! l = Some ws -> is_Some (h !! l') ->
  is_Some (<[l := sort ws]> h !! l').
Proof.
  intros Hl [sw Hsw]. destruct (decide (l = l')) as [<-|Hne].
  - exists (sort ws). apply list_lookup_insert_eq. now apply lookup_lt_Some in Hl.
  - exists sw. now rewrite list_lookup_insert_ne.
Qed.

(** X1: handed an FRD, [_convert_to_frd] sorts the caller's grid in
    place whatever the outcome; it returns the operand itself when the
    sorted grid has the length of the operand's grid and agrees with it
    within 1e-8 at every index, and raises the grid-mismatch error
    otherwise.  An operand that shares the caller's grid always matches. *)
Theorem convert_frd_operand (g : FRD tck) (l : loc) (i o : nat) (s : state)
        (ws sw : list Qc) :
  heap s !! l = Some ws ->
  <[l := sort ws]> (heap s) !! omega g = Some sw ->
  _convert_to_frd splprep (OFRD g) l i o s =
    (if Nat.eqb (length ws) (length sw) && all_near (sort ws) sw
     then Ok g else Raise NotImplementedError_grid,
     St (<[l := sort ws]> (heap s)) (warnings s)) /\
  (omega g = l ->
   _convert_to_frd splprep (OFRD g) l i o s =
     (Ok g, St (<[l := sort ws]> (heap s)) (warnings s))).
Proof.
  intros Hl Hg.
  pose proof (convert_frd_run g l i o s ws sw Hl Hg) as E.
  split; [exact E|].
  intros Hsame. rewrite E. rewrite Hsame in Hg.
  rewrite list_lookup_insert_eq in Hg by (now apply lookup_lt_Some in Hl).
  injection Hg as <-.
  now rewrite length_sort, Nat.eqb_refl, all_near_refl.
Qed.

End Coercion.

(** [f + f] on the unsorted grid [[2, 1]]: the operand is [self], the
    grid is sorted in place and matches itself. *)
Lemma convert_frd_operand_witness :
  let f := siso_at 0 [rc 1; rc 2] in
  let s := St [[rq 2; rq 1]] [] in
  _convert_to_frd splprep_unit (OFRD f) 0 1 1 s =
  (Ok f, St (<[0%nat := sort [rq 2; rq 1]]> (heap s)) (warnings s)).
Proof.
  intros f s.
  refine (proj2 (convert_frd_operand splprep_unit f 0 1 1 s
                   [rq 2; rq 1] (sort [rq 2; rq 1]) _ _) _);
    reflexivity.
Defined.

(** ** What the operations do to the store *)

Lemma store_extends_refl (s : state) : store_extends s s.
Proof. exists []. now rewrite app_nil_r. Qed.

Lemma store_extends_trans (s1 s2 s3 : state) :
  store_extends s1 s2 -> store_extends s2 s3 -> store_extends s1 s3.
Proof.
  intros [m1 H1] [m2 H2]. exists (m1 ++ m2). now rewrite H2, H1, app_assoc.
Qed.

Lemma store_extends_lookup (s s' : state) (l : loc) (ws : list Qc) :
  store_extends s s' -> heap s !! l = Some ws -> heap s' !! l = Some ws.
Proof.
  intros [more ->] H. rewrite lookup_app_l; [exact H|].
  now apply lookup_lt_Some in H.
Qed.

Lemma extending_ret {A} (a : A) : extending (ret a).
Proof. intros s. apply store_extends_refl. Qed.

Lemma extending_raise {A} (e : exn) : extending (raise (A := A) e).
Proof. intros s. apply store_extends_refl. Qed.

Lemma extending_read (l : loc) : extending (read l).
Proof.
  intros s. unfold read. destruct (heap s !! l); apply store_extends_refl.
Qed.

Lemma extending_alloc (ws : list Qc) : extending (alloc ws).
Proof. intros s. now exists [ws]. Qed.

Lemma extending_warn (w : warning) : extending (warn w).
Proof. intros s. exists []. cbn. now rewrite app_nil_r. Qed.

Lemma extending_bind {A B} (m : M A) (k : A -> M B) :
  extending m -> (forall a, extending (k a)) -> extending (bind m k).
Proof.
  intros Hm Hk s. unfold bind. specialize (Hm s).
  destruct (m s) as [[a|e] s1]; cbn in *; [|exact Hm].
  exact (store_extends_trans _ _ _ Hm (Hk a s1)).
Qed.

Lemma extending_try {A} (m h : M A) :
  extending m -> extending h -> extending (try_except m h).
Proof.
  intros Hm Hh s. unfold try_except. specialize (Hm s).
  destruct (m s) as [[a|e] s1]; cbn in *; [exact Hm|].
  exact (store_extends_trans _ _ _ Hm (Hh s1)).
Qed.

Ltac extending_basic :=
  repeat first
    [ apply extending_ret | apply extending_raise | apply extending_read
    | apply extending_alloc | apply extending_warn
    | apply extending_bind; [|intros ?]
    | apply extending_try
    | match goal with
      | |- extending (if ?b then _ else _) => destruct b
      | |- extending (match ?x with _ => _ end) => destruct x
      end ].

Lemma extending_FRD_init {tck} (splprep : list Qc -> list complex -> option tck)
      (args : ctor_args tck) (smooth : bool) :
  extending (FRD_init splprep args smooth).
Proof. unfold FRD_init. extending_basic. Qed.

Lemma extending_bcast3 (h : complex -> complex -> complex) (a b : ndarray3) :
  extending (bcast3 h a b).
Proof. unfold bcast3. extending_basic. Qed.

Lemma extending_stack_matmul (As Bs : list matrix) :
  extending (stack_matmul As Bs).
Proof. unfold stack_matmul. extending_basic. Qed.

Ltac extending :=
  repeat first
    [ apply extending_FRD_init | apply extending_bcast3
    | apply extending_stack_matmul
    | apply extending_ret | apply extending_raise | apply extending_read
    | apply extending_alloc | apply extending_warn
    | apply extending_bind; [|intros ?]
    | apply extending_try
    | match goal with
      | |- extending (if ?b then _ else _) => destruct b
      | |- extending (match ?x with _ => _ end) => destruct x
      end ].

Section Store.
Context {tck : Type} (splprep : list Qc -> list complex -> option tck)
        (splev : complex -> tck -> complex).

(** The coercion of an operand that is not an FRD leaves every array
    of the store as it is. *)
Lemma extending_convert (o : operand tck) (l : loc) (i j : nat) :
  (forall g, o <> OFRD g) ->
  extending (_convert_to_frd splprep o l i j).
Proof.
  intros Ho. destruct o as [g| | | |]; [now destruct (Ho g)| | | |];
    unfold _convert_to_frd; extending.
Qed.

(** X2: [eval] and [__call__] never change the store or the warning
    log, whatever they return or raise. *)
Theorem eval_read_only (f : FRD tck) (x : array_like) (sq : option bool)
        (s : state) :
  snd (eval splev f x sq s) = s /\
  (forall y, snd (__call__ splev f y sq s) = s).
Proof.
  assert (Hproc : forall a out, snd (_process_frequency_response f a out sq s) = s).
  { intros a out. unfold _process_frequency_response.
    destruct sq as [[|]|];
      destruct (Nat.eqb (noutputs f) 1 && Nat.eqb (ninputs f) 1);
      try destruct a; try reflexivity;
      try (destruct (nth 0 (nth 0 (data3 out) []) []) as [|z [|z' t]];
           reflexivity).
    all: destruct (Nat.eqb (dim0 out) 1), (Nat.eqb (dim1 out) 1),
      (Nat.eqb (dim2 out) 1); reflexivity. }
  assert (Heval : forall a, snd (eval splev f a sq s) = s).
  { intros a. unfold eval. destruct (atleast_1d a) as [l|]; [|reflexivity].
    destruct (existsb _ l); [reflexivity|].
    unfold bind. destruct (ifunc f) as [tbl|].
    - apply Hproc.
    - unfold read. destruct (heap s !! omega f) as [ws|]; [|reflexivity].
      destruct (Nat.ltb _ _); [reflexivity | apply Hproc]. }
  split; [apply Heval|].
  intros [y|]; [|reflexivity]. unfold __call__.
  destruct (atleast_1d y) as [l|]; [|reflexivity].
  destruct (existsb _ l); [reflexivity|].
  unfold bind. specialize (Heval (imag_part y)).
  destruct (eval splev f (imag_part y) sq s) as [[r|e] s']; exact Heval.
Qed.

End Store.


Section Frame.
Context {tck : Type} (splprep : list Qc -> list complex -> option tck).

(** After the coercion of an FRD operand, a continuation that only
    extends the store leaves the caller's grid sorted and every other
    array as it was. *)
Lemma frame_after_convert {A} (g : FRD tck) (l : loc) (k : FRD tck -> M A)
      (s : state) (ws : list Qc) :
  heap s !! l = Some ws -> is_Some (heap s !! omega g) ->
  (forall a, extending (k a)) ->
  exists more,
    heap (snd (bind (_convert_to_frd splprep (OFRD g) l 1 1) k s)) =
    <[l := sort ws]> (heap s) ++ more.
Proof.
  intros Hl Hg Hk.
  destruct (lookup_after_sort _ l (omega g) ws Hl Hg) as [sw Hsw].
  unfold bind. rewrite (convert_frd_run splprep g l 1 1 s ws sw Hl Hsw).
  destruct (_ && _).
  - exact (Hk g _).
  - exists []. cbn. now rewrite app_nil_r.
Qed.

(** X3: a binary operator or [feedback] applied to [self] and an FRD
    operand leaves in the store, whatever it returns or raises, the
    ascending sort of [self]'s grid in place of that grid, every other
    array as it was, and possibly new arrays after them; applied to any
    other operand it modifies no array at all. *)
Theorem operator_store (f : FRD tck) (o : operand tck) (sign : Qc)
        (s : state) (ws : list Qc) :
  heap s !! omega f = Some ws ->
  (forall g, o = OFRD g -> is_Some (heap s !! omega g)) ->
  let base := match o with
              | OFRD _ => <[omega f := sort ws]> (heap s)
              | _ => heap s
              end in
  (exists more, heap (snd (__add__ splprep f o s)) = base ++ more) /\
  (exists more, heap (snd (__mul__ splprep f o s)) = base ++ more) /\
  (exists more, heap (snd (__rmul__ splprep f o s)) = base ++ more) /\
  (exists more, heap (snd (__truediv__ splprep f o s)) = base ++ more) /\
  (exists more, heap (snd (feedback splprep f o sign s)) = base ++ more).
Proof.
  intros Hf Ho base.
  assert (Hother : forall A (m : M A),
             (forall g, o <> OFRD g) -> extending m ->
             exists more, heap (snd (m s)) = base ++ more).
  { intros A m Hne Hm. subst base. destruct o; [now destruct (Hne f0)|..];
      exact (Hm s). }
  destruct o as [g| sys | c | sh rows |] eqn:Eo.
  2-5: repeat split; apply Hother; try discriminate;
    unfold __add__, __mul__, __rmul__, __truediv__, feedback;
    try destruct sh;
    extending; try (apply extending_convert; discriminate).
  specialize (Ho g eq_refl). subst base.
  repeat split.
  - unfold __add__. destruct Ho as [wg Hg].
    unfold bind at 1.
    rewrite (bind_Ok _ _ _ _ _ (read_Ok _ _ _ Hg)).
    rewrite (bind_Ok _ _ _ _ _ (read_Ok _ _ _ Hf)).
    destruct (_ || _); cbn [warn ret].
    + refine (frame_after_convert g (omega f) _
                (St (heap s) (warnings s ++ [Warn_frequency_mismatch])) ws _ _ _);
        [exact Hf | now exists wg | intros a; extending].
    + refine (frame_after_convert g (omega f) _ s ws _ _ _);
        [exact Hf | now exists wg | intros a; extending].
  - unfold __mul__.
    apply (frame_after_convert g (omega f) _ _ ws);
      [exact Hf | exact Ho | intros a; extending].
  - unfold __rmul__.
    apply (frame_after_convert g (omega f) _ _ ws);
      [exact Hf | exact Ho | intros a; extending].
  - unfold __truediv__.
    apply (frame_after_convert g (omega f) _ _ ws);
      [exact Hf | exact Ho | intros a; extending].
  - unfold feedback.
    apply (frame_after_convert g (omega f) _ _ ws);
      [exact Hf | exact Ho | intros a; extending].
Qed.

End Frame.

(** The mismatch at an unsorted grid: [frd([1,2],[2,1]) * frd([3,4],[2,1])]
    raises, and the left grid is left sorted. *)
Lemma operator_store_witness :
  let f := siso_at 0 [rc 1; rc 2] in
  let g := siso_at 1 [rc 3; rc 4] in
  let s := St [[rq 2; rq 1]; [rq 2; rq 1]] [] in
  exists more,
    heap (snd (__mul__ splprep_unit f (OFRD g) s)) =
    <[0%nat := sort [rq 2; rq 1]]> (heap s) ++ more.
Proof.
  intros f g s.
  refine (proj1 (proj2 (operator_store splprep_unit f (OFRD g) 0%Qc s
                          [rq 2; rq 1] _ _))).
  - reflexivity.
  - intros g' Hg. injection Hg as <-. now exists [rq 2; rq 1].
Defined.

(** ** Exact lookup *)

Section ExactLookup.
Context {tck : Type} (splev : complex -> tck -> complex).

(** X4: on an FRD without interpolant whose stored grid has no repeated
    frequency, [eval] of a 1-d request without positive imaginary parts
    succeeds exactly when the request has no repeated entry and every
    entry is a stored frequency; in every other case it raises the
    not-in-list error.  A request that names a stored frequency twice is
    therefore refused. *)
Theorem eval_exact_lookup (f : FRD tck) (s : state) (ws : list Qc)
        (req : list complex) (sq : option bool) :
  ifunc f = None ->
  heap s !! omega f = Some ws ->
  List.NoDup ws ->
  Forall (fun c => (im c <= 0)%Qc) req ->
  let served := List.NoDup req /\
                forall c, In c req -> exists w, In w ws /\ c = RtoC w in
  (served -> exists r, eval splev f (Array1 req) sq s = (Ok r, s)) /\
  (~ served ->
   eval splev f (Array1 req) sq s = (Raise ValueError_not_in_list, s)).
Proof.
  intros Hi Hws Hnd Hreal served.
  rewrite (eval_plain splev f (Array1 req) req sq s ws Hi eq_refl Hws).
  rewrite (eval_check_passes req Hreal).
  split.
  - intros [Hreq Hmem].
    replace (Nat.ltb _ _) with false
      by (symmetry; apply Nat.ltb_ge; now apply isin_covers).
    destruct (process_array f req (mask_select (isin ws req) (fresp f)) sq s)
      as [r Hr].
    exists r. apply Hr.
  - intros Hnot. destruct (Nat.ltb _ _) eqn:Hlt; [reflexivity|].
    exfalso. apply Hnot. apply Nat.ltb_ge in Hlt.
    unfold isin in Hlt. rewrite count_true_map in Hlt.
    set (picked := List.filter _ ws) in Hlt.
    assert (HndL : List.NoDup (map RtoC picked))
      by (apply NoDup_map_RtoC, List.NoDup_filter, Hnd).
    assert (Hlen : (length req <= length (map RtoC picked))%nat)
      by (now rewrite length_map).
    split.
    + exact (@NoDup_incl_NoDup _ _ _ HndL Hlen (isin_picked ws req)).
    + intros c Hc.
      pose proof (@NoDup_length_incl _ _ _ HndL Hlen (isin_picked ws req) c Hc)
        as Hin.
      apply in_map_iff in Hin as (w & <- & Hw).
      apply filter_In in Hw as [Hw _]. now exists w.
Qed.

Lemma select_all {A} (l : list A) (n : nat) :
  length l = n -> select (repeat true n) l = l.
Proof.
  revert n. induction l as [|x l IH]; intros [|n] H; cbn in *;
    try discriminate; [reflexivity|].
  f_equal. apply IH. now injection H.
Qed.

Lemma isin_self (ws : list Qc) :
  isin ws (map RtoC ws) = repeat true (length ws).
Proof.
  unfold isin.
  assert (H : forall l, incl l ws ->
            map (fun w => existsb (fun c => bool_decide (RtoC w = c)) (map RtoC ws)) l
            = repeat true (length l)).
  { induction l as [|w l IH]; intros Hl; [reflexivity|]. cbn.
    rewrite IH by (intros x Hx; apply Hl; now right). f_equal.
    apply existsb_exists. exists (RtoC w). split.
    - apply in_map, Hl. now left.
    - now apply bool_decide_eq_true. }
  apply H, incl_refl.
Qed.

Lemma count_true_repeat (n : nat) : count_true (repeat true n) = n.
Proof.
  unfold count_true. induction n as [|n IH]; [reflexivity|].
  cbn [repeat]. rewrite filter_cons, decide_True by reflexivity.
  cbn [length]. now rewrite IH.
Qed.

(** X5: on an FRD without interpolant whose response array agrees with
    its shape and has one sample per stored frequency, [eval] at the
    whole stored grid with [squeeze=False] returns the stored response
    array itself. *)
Theorem eval_whole_grid (f : FRD tck) (s : state) (ws : list Qc) :
  ifunc f = None ->
  heap s !! omega f = Some ws ->
  wf_ndarray3 (fresp f) ->
  dim2 (fresp f) = length ws ->
  eval splev f (Array1 (map RtoC ws)) (Some false) s = (Ok (RArray (fresp f)), s).
Proof.
  intros Hi Hws [_ Hwf] Hdim.
  rewrite (eval_plain splev f (Array1 (map RtoC ws)) (map RtoC ws)
             (Some false) s ws Hi eq_refl Hws).
  rewrite eval_check_passes
    by (apply Forall_forall; intros c Hc;
        apply in_map_iff in Hc as (w & <- & _); apply Qcle_refl).
  rewrite isin_self, count_true_repeat, length_map, Nat.ltb_irrefl.
  unfold _process_frequency_response, ret. do 2 f_equal.
  unfold mask_select. rewrite count_true_repeat, <- Hdim.
  destruct (fresp f) as [[[p m] n] data]. unfold dim0, dim1, dim2 in *.
  cbn [shape3 data3 fst snd] in *. apply (f_equal RArray), (f_equal (Arr3 (p, m, n))).
  rewrite <- (map_id data) at 2. apply map_ext_in. intros row Hrow.
  rewrite Forall_forall in Hwf.
  destruct (Hwf row Hrow) as [_ Hch].
  rewrite <- (map_id row) at 2. apply map_ext_in. intros ch Hc.
  rewrite Forall_forall in Hch. apply select_all.
  now apply Hch.
Qed.

End ExactLookup.

(** On [frd([1.0, 1.0, 0.5], [1, 10, 100])], [eval([1, 1])] is refused. *)
Lemma eval_exact_lookup_witness :
  let f := siso_at 0 [rc 1; rc 1; RtoC (q 1 2)] in
  let s := St [[rq 1; rq 10; rq 100]] [] in
  eval splev_unit f (Array1 [rc 1; rc 1]) None s =
  (Raise ValueError_not_in_list, s).
Proof.
  intros f s.
  refine (proj2 (eval_exact_lookup splev_unit f s [rq 1; rq 10; rq 100]
                   [rc 1; rc 1] None _ _ _ _) _).
  - reflexivity.
  - reflexivity.
  - apply NoDup_ListNoDup. by_compute.
  - repeat constructor; qc_order.
  - intros [Hnd _]. inversion Hnd as [|? ? Hnotin _]. apply Hnotin. now left.
Defined.

(** [eval] at the whole grid of a 2x1 system on [[1, 2]]. *)
Lemma eval_whole_grid_witness :
  let a := Arr3 (2, 1, 2)%nat [[[rc 1; rc 2]]; [[rc 3; rc 4]]] in
  let f := mkFRD 0 a (None : option (list (list unit))) in
  let s := St [[rq 1; rq 2]] [] in
  eval splev_unit f (Array1 (map RtoC [rq 1; rq 2])) (Some false) s =
  (Ok (RArray a), s).
Proof.
  intros a f s.
  apply (eval_whole_grid splev_unit f s [rq 1; rq 2]).
  - reflexivity.
  - reflexivity.
  - split; [reflexivity|]. repeat constructor.
  - reflexivity.
Defined.

(** ** Sums, differences and negation *)

Lemma get3_build3 (p m n : nat) (F : nat -> nat -> nat -> complex) (i j k : nat) :
  (i < p)%nat -> (j < m)%nat -> (k < n)%nat ->
  get3 (build3 p m n F) i j k = F i j k.
Proof.
  intros Hi Hj Hk. unfold get3, build3. cbn [data3].
  rewrite (nth_map_seq (fun i => map (fun j => map (fun k => F i j k) (seq 0 n))
                                     (seq 0 m))) by exact Hi.
  rewrite (nth_map_seq (fun j => map (fun k => F i j k) (seq 0 n))) by exact Hj.
  now rewrite nth_map_seq.
Qed.

Lemma get3_map3 (h : complex -> complex) (a : ndarray3) (i j k : nat) :
  h c0 = c0 -> get3 (map3 h a) i j k = h (get3 a i j k).
Proof.
  intros H0. unfold get3, map3. cbn [data3].
  rewrite (nth_map_default (map (map h)) _ [] [] i eq_refl).
  rewrite (nth_map_default (map h) _ [] [] j eq_refl).
  now rewrite (nth_map_default h _ c0 c0 k H0).
Qed.

(** An elementwise operation on two arrays of one shape. *)
Lemma bcast3_same_shape (h : complex -> complex -> complex) (a b : ndarray3)
      (s : state) :
  shape3 a = shape3 b ->
  exists r,
    bcast3 h a b s = (Ok r, s) /\
    shape3 r = shape3 a /\
    forall i j k, (i < dim0 a)%nat -> (j < dim1 a)%nat -> (k < dim2 a)%nat ->
      get3 r i j k = h (get3 a i j k) (get3 b i j k).
Proof.
  intros Hsh. unfold bcast3, dim0, dim1, dim2. rewrite <- Hsh, !bdim_same.
  eexists. split; [reflexivity|]. split.
  - cbn. now destruct (shape3 a) as [[p m] n].
  - intros i j k Hi Hj Hk. rewrite get3_build3 by assumption.
    now rewrite !bix_lt by assumption.
Qed.

Lemma any_differ_same (ws : list Qc) : any_differ ws ws = false.
Proof.
  unfold any_differ. induction ws as [|w ws IH]; [reflexivity|].
  cbn. now rewrite bool_decide_eq_true_2.
Qed.

Lemma cneg_cneg (c : complex) : cneg (cneg c) = c.
Proof. destruct c as [a b]. unfold cneg. cbn. f_equal; ring. Qed.

Section Sums.
Context {tck : Type} (splprep : list Qc -> list complex -> option tck).

(** The sum of two FRDs whose grids match, up to the size checks. *)
Lemma add_matching (f g : FRD tck) (s : state) (ws wg : list Qc) :
  heap s !! omega f = Some ws ->
  heap s !! omega g = Some wg ->
  Sorted Qcle ws ->
  length ws = length wg -> all_near ws wg = true ->
  __add__ splprep f (OFRD g) s =
  (if negb (Nat.eqb (ninputs f) (ninputs g))
   then raise (ValueError_summand_inputs (ninputs f) (ninputs g))
   else if negb (Nat.eqb (noutputs f) (noutputs g))
   then raise (ValueError_summand_outputs (noutputs f) (noutputs g))
   else
     do sum <- bcast3 cadd (fresp f) (fresp g);
     do oo <- read (omega g);
     FRD_init splprep (ArgsData (Resp3 sum) (Freq1 oo)) false)
    (St (heap s)
        (warnings s ++ if any_differ wg ws then [Warn_frequency_mismatch] else [])).
Proof.
  intros Hf Hg Hsorted Hlen Hnear. unfold __add__.
  set (s1 := St (heap s) (warnings s ++ _)).
  rewrite (bind_Ok _ _ s s1 tt).
  - now rewrite (bind_Ok _ _ _ _ _
                   (convert_frd_match splprep g (omega f) ws wg 1 1 s1
                      Hf Hsorted Hg Hlen Hnear)).
  - rewrite (bind_Ok _ _ _ _ _ (read_Ok _ _ _ Hg)).
    rewrite (bind_Ok _ _ _ _ _ (read_Ok _ _ _ Hf)).
    rewrite Hlen, Nat.eqb_refl. cbn [negb orb]. subst s1.
    destruct (any_differ wg ws); unfold warn, ret; cbn.
    + reflexivity.
    + rewrite app_nil_r. now destruct s.
Qed.

(** The sum of two FRDs of one shape whose grids match. *)
Lemma add_sum (f g : FRD tck) (s : state) (ws wg : list Qc) :
  heap s !! omega f = Some ws ->
  heap s !! omega g = Some wg ->
  Sorted Qcle ws ->
  length ws = length wg -> all_near ws wg = true ->
  dim2 (fresp g) = length wg ->
  shape3 (fresp f) = shape3 (fresp g) ->
  exists r,
    __add__ splprep f (OFRD g) s =
      (Ok r, St (heap s ++ [wg])
                (warnings s ++
                 if any_differ wg ws then [Warn_frequency_mismatch] else [])) /\
    omega r = length (heap s) /\
    ifunc r = None /\
    shape3 (fresp r) = shape3 (fresp f) /\
    forall i j k,
      (i < noutputs f)%nat -> (j < ninputs f)%nat -> (k < length ws)%nat ->
      get3 (fresp r) i j k =
      cadd (get3 (fresp f) i j k) (get3 (fresp g) i j k).
Proof.
  intros Hf Hg Hsorted Hlen Hnear Hdim Hsh.
  rewrite (add_matching f g s ws wg Hf Hg Hsorted Hlen Hnear).
  set (s1 := St (heap s) _).
  assert (Hin : ninputs f = ninputs g)
    by (unfold ninputs, dim1; now rewrite Hsh).
  assert (Hout : noutputs f = noutputs g)
    by (unfold noutputs, dim0; now rewrite Hsh).
  rewrite <- Hin, <- Hout, !Nat.eqb_refl. cbn [negb].
  destruct (bcast3_same_shape cadd (fresp f) (fresp g) s1 Hsh)
    as (sum & Hsum & Hshape & Hent).
  rewrite (bind_Ok _ _ _ _ _ Hsum).
  rewrite (bind_Ok _ _ s1 s1 wg) by (now apply read_Ok).
  rewrite FRD_init_data_plain
    by (unfold dim2 in *; now rewrite Hshape, Hsh).
  eexists. split; [reflexivity|]. cbn [omega ifunc fresp].
  repeat split; [exact Hshape|].
  intros i j k Hi Hj Hk. apply Hent; [exact Hi | exact Hj |].
  unfold dim2 in *. now rewrite Hsh, Hdim, <- Hlen.
Qed.

(** X6: for two FRDs whose grids match (the left one stored in ascending
    order), the sum is refused with the summand error carrying the two
    input counts when these differ, else with the one carrying the two
    output counts when those differ; for responses of one shape it is a
    new FRD without interpolant, on a copy of the right operand's grid,
    whose every entry is the sum of the operands' entries.  The warning
    is logged exactly when the two grids are not identical. *)
Theorem add_same_grid (f g : FRD tck) (s : state) (ws wg : list Qc) :
  heap s !! omega f = Some ws ->
  heap s !! omega g = Some wg ->
  Sorted Qcle ws ->
  length ws = length wg -> all_near ws wg = true ->
  dim2 (fresp g) = length wg ->
  let s1 := St (heap s)
               (warnings s ++
                if bool_decide (wg = ws) then [] else [Warn_frequency_mismatch]) in
  (ninputs f <> ninputs g ->
   __add__ splprep f (OFRD g) s =
   (Raise (ValueError_summand_inputs (ninputs f) (ninputs g)), s1)) /\
  (ninputs f = ninputs g -> noutputs f <> noutputs g ->
   __add__ splprep f (OFRD g) s =
   (Raise (ValueError_summand_outputs (noutputs f) (noutputs g)), s1)) /\
  (shape3 (fresp f) = shape3 (fresp g) ->
   exists r,
     __add__ splprep f (OFRD g) s =
       (Ok r, St (heap s1 ++ [wg]) (warnings s1)) /\
     omega r = length (heap s) /\
     ifunc r = None /\
     shape3 (fresp r) = shape3 (fresp f) /\
     forall i j k,
       (i < noutputs f)%nat -> (j < ninputs f)%nat -> (k < length ws)%nat ->
       get3 (fresp r) i j k =
       cadd (get3 (fresp f) i j k) (get3 (fresp g) i j k)).
Proof.
  intros Hf Hg Hsorted Hlen Hnear Hdim s1.
  pose proof (add_matching f g s ws wg Hf Hg Hsorted Hlen Hnear) as E.
  assert (Hw : (if any_differ wg ws then [Warn_frequency_mismatch] else [])
               = if bool_decide (wg = ws) then [] else [Warn_frequency_mismatch]).
  { destruct (bool_decide (wg = ws)) eqn:Heq.
    - apply bool_decide_eq_true in Heq as ->. now rewrite any_differ_same.
    - apply bool_decide_eq_false in Heq.
      destruct (any_differ wg ws) eqn:Hd; [reflexivity|].
      exfalso. apply Heq. clear -Hlen Hd. unfold any_differ in Hd.
      revert ws Hlen Hd. induction wg as [|x wg IH]; intros [|y ws] Hlen Hd;
        cbn in *; try discriminate; [reflexivity|].
      apply orb_false_iff in Hd as [Hx Hd].
      apply negb_false_iff, bool_decide_eq_true in Hx as ->.
      f_equal. apply IH; [now injection Hlen | exact Hd]. }
  rewrite Hw in E. fold s1 in E.
  split; [|split].
  - intros Hne. rewrite E. apply Nat.eqb_neq in Hne. now rewrite Hne.
  - intros Heq Hne. rewrite E, Heq, Nat.eqb_refl.
    apply Nat.eqb_neq in Hne. now rewrite Hne.
  - intros Hsh.
    destruct (add_sum f g s ws wg Hf Hg Hsorted Hlen Hnear Hdim Hsh)
      as (r & Hr & Hrest).
    exists r. split; [|exact Hrest].
    rewrite Hr. subst s1. cbn [heap warnings]. now rewrite Hw.
Qed.

(** The negation of an FRD whose response has one sample per stored
    frequency. *)
Lemma neg_run (f : FRD tck) (s : state) (ws : list Qc) :
  heap s !! omega f = Some ws -> dim2 (fresp f) = length ws ->
  __neg__ splprep f s =
  (Ok (mkFRD (length (heap s)) (neg3 (fresp f)) None),
   St (heap s ++ [ws]) (warnings s)).
Proof.
  intros Hf Hdim. unfold __neg__.
  rewrite (bind_Ok _ _ _ _ _ (read_Ok _ _ _ Hf)).
  now rewrite FRD_init_data_plain.
Qed.

Lemma neg3_neg3 (a : ndarray3) : neg3 (neg3 a) = a.
Proof.
  destruct a as [sh data]. unfold neg3, map3. cbn. f_equal.
  rewrite map_map. rewrite <- (map_id data) at 2. apply map_ext. intros row.
  rewrite map_map. rewrite <- (map_id row) at 2. apply map_ext. intros ch.
  rewrite map_map. rewrite <- (map_id ch) at 2. apply map_ext. intros c.
  apply cneg_cneg.
Qed.

(** X7: [-f] is a new FRD on a copy of [f]'s grid (in the stored order)
    with every entry negated and without interpolant, also when [f] is
    smooth; negating twice gives back [f]'s response. *)
Theorem neg_involution (f : FRD tck) (s : state) (ws : list Qc) :
  heap s !! omega f = Some ws -> dim2 (fresp f) = length ws ->
  exists n nn s1 s2,
    __neg__ splprep f s = (Ok n, s1) /\
    __neg__ splprep n s1 = (Ok nn, s2) /\
    fresp n = neg3 (fresp f) /\ ifunc n = None /\
    heap s1 !! omega n = Some ws /\
    fresp nn = fresp f /\ heap s2 !! omega nn = Some ws /\
    store_extends s s2.
Proof.
  intros Hf Hdim.
  pose proof (neg_run f s ws Hf Hdim) as H1.
  set (n := mkFRD (length (heap s)) (neg3 (fresp f)) None) in *.
  set (s1 := St (heap s ++ [ws]) (warnings s)) in *.
  assert (Hn : heap s1 !! omega n = Some ws) by apply lookup_alloc.
  pose proof (neg_run n s1 ws Hn Hdim) as H2.
  eexists _, _, _, _. split; [exact H1|]. split; [exact H2|].
  cbn [fresp ifunc omega n heap]. rewrite neg3_neg3.
  repeat split; try apply lookup_alloc.
  exists [ws; ws]. cbn. now rewrite <- app_assoc.
Qed.

End Sums.

(** [frd([1,2],[1,2]) + frd([3,4],[1,2])] has the response [[4, 6]]. *)
Lemma add_same_grid_witness :
  let f := siso_at 0 [rc 1; rc 2] in
  let g := siso_at 1 [rc 3; rc 4] in
  let s := St [[rq 1; rq 2]; [rq 1; rq 2]] [] in
  exists r,
    __add__ splprep_unit f (OFRD g) s =
      (Ok r, St (heap s ++ [[rq 1; rq 2]]) []) /\
    omega r = 2%nat /\ ifunc r = None /\
    shape3 (fresp r) = shape3 (fresp f) /\
    forall i j k,
      (i < noutputs f)%nat -> (j < ninputs f)%nat -> (k < 2)%nat ->
      get3 (fresp r) i j k =
      cadd (get3 (fresp f) i j k) (get3 (fresp g) i j k).
Proof.
  intros f g s.
  refine (proj2 (proj2 (add_same_grid splprep_unit f g s
                          [rq 1; rq 2] [rq 1; rq 2] _ _ _ _ _ _)) _).
  - reflexivity.
  - reflexivity.
  - repeat constructor. qc_order.
  - reflexivity.
  - reflexivity.
  - reflexivity.
  - reflexivity.
Defined.

(** [-(-frd([1,2],[2,1]))] on a grid that is not sorted. *)
Lemma neg_involution_witness :
  let f := siso_at 0 [rc 1; rc 2] in
  let s := St [[rq 2; rq 1]] [] in
  exists n nn s1 s2,
    __neg__ splprep_unit f s = (Ok n, s1) /\
    __neg__ splprep_unit n s1 = (Ok nn, s2) /\
    fresp n = neg3 (fresp f) /\ ifunc n = None /\
    heap s1 !! omega n = Some [rq 2; rq 1] /\
    fresp nn = fresp f /\ heap s2 !! omega nn = Some [rq 2; rq 1] /\
    store_extends s s2.
Proof.
  intros f s.
  apply (neg_involution splprep_unit f s [rq 2; rq 1]); reflexivity.
Defined.

(** ** Differences and scalars *)

Lemma cmul_c1_l (x : complex) : cmul c1 x = x.
Proof. destruct x as [a b]. unfold cmul, c1, RtoC. cbn. f_equal; ring. Qed.

Section Scalars.
Context {tck : Type} (splprep : list Qc -> list complex -> option tck).

(** X8: for two FRDs of one shape whose grids match (the left one
    stored in ascending order), [f - g] is a new FRD without interpolant
    on a copy of [g]'s grid whose every entry is the difference of the
    operands' entries; nothing stored before is modified. *)
Theorem sub_same_grid (f g : FRD tck) (s : state) (ws wg : list Qc) :
  heap s !! omega f = Some ws ->
  heap s !! omega g = Some wg ->
  Sorted Qcle ws ->
  length ws = length wg -> all_near ws wg = true ->
  dim2 (fresp g) = length wg ->
  shape3 (fresp f) = shape3 (fresp g) ->
  exists r s',
    __sub__ splprep f (OFRD g) s = (Ok r, s') /\
    ifunc r = None /\
    heap s' !! omega r = Some wg /\
    store_extends s s' /\
    forall i j k,
      (i < noutputs f)%nat -> (j < ninputs f)%nat -> (k < length ws)%nat ->
      get3 (fresp r) i j k =
      csub (get3 (fresp f) i j k) (get3 (fresp g) i j k).
Proof.
  intros Hf Hg Hsorted Hlen Hnear Hdim Hsh. unfold __sub__.
  rewrite (bind_Ok _ _ _ _ _ (neg_run splprep g s wg Hg Hdim)).
  set (n := mkFRD (length (heap s)) (neg3 (fresp g)) None).
  set (s1 := St (heap s ++ [wg]) (warnings s)).
  destruct (add_sum splprep f n s1 ws wg) as (r & Hr & Hom & Hi & _ & Hent);
    try assumption.
  - now apply lookup_alloc_old.
  - apply lookup_alloc.
  - eexists _, _. split; [exact Hr|]. split; [exact Hi|]. cbn [heap].
    split; [rewrite Hom; apply lookup_alloc|]. split.
    + exists [wg; wg]. cbn. now rewrite <- app_assoc.
    + intros i j k Hi' Hj Hk. rewrite (Hent i j k Hi' Hj Hk).
      cbn [fresp n]. unfold neg3. now rewrite get3_map3.
Qed.

(** X9: [f * c] for a number [c] is a new FRD on a copy of [f]'s grid,
    in the stored order and without any grid comparison, with every
    entry multiplied by [c] and with [f]'s smoothing; for a smooth [f]
    the product is fitted again and a failure of that fit is the
    outcome.  [__rmul__] with a number does the same. *)
Theorem mul_scalar (f : FRD tck) (c : complex) (s : state) (ws : list Qc) :
  heap s !! omega f = Some ws ->
  dim2 (fresp f) = length ws ->
  let fr := scale3 (fresp f) c in
  let s1 := St (heap s ++ [ws]) (warnings s) in
  __rmul__ splprep f (ONum c) s = __mul__ splprep f (ONum c) s /\
  (is_smooth f = false \/ is_Some (fit_channels splprep ws fr) ->
   exists r,
     __mul__ splprep f (ONum c) s = (Ok r, s1) /\
     omega r = length (heap s) /\ heap s1 !! omega r = Some ws /\
     fresp r = fr /\ is_smooth r = is_smooth f /\
     forall i j k, get3 (fresp r) i j k = cmul (get3 (fresp f) i j k) c) /\
  (is_smooth f = true -> fit_channels splprep ws fr = None ->
   __mul__ splprep f (ONum c) s = (Raise SplprepError, s1)).
Proof.
  intros Hf Hdim fr s1.
  assert (Hrun : __mul__ splprep f (ONum c) s =
                 if is_smooth f then
                   match fit_channels splprep ws fr with
                   | Some tbl => (Ok (mkFRD (length (heap s)) fr (Some tbl)), s1)
                   | None => (Raise SplprepError, s1)
                   end
                 else (Ok (mkFRD (length (heap s)) fr None), s1)).
  { unfold __mul__. rewrite (bind_Ok _ _ _ _ _ (read_Ok _ _ _ Hf)).
    fold fr. now rewrite FRD_init_data by exact Hdim. }
  assert (Hget : forall i j k, get3 fr i j k = cmul (get3 (fresp f) i j k) c).
  { intros i j k. unfold fr, scale3. apply get3_map3.
    destruct c. unfold cmul, c0, RtoC. cbn. f_equal; ring. }
  split; [reflexivity|]. split.
  - intros Hok. rewrite Hrun. destruct (is_smooth f) eqn:Hsm.
    + destruct Hok as [Hno|[tbl Htbl]]; [discriminate|]. rewrite Htbl.
      eexists. split; [reflexivity|]. cbn [omega fresp is_smooth ifunc heap s1].
      split; [reflexivity|]. split; [apply lookup_alloc|]. auto.
    + eexists. split; [reflexivity|]. cbn [omega fresp is_smooth ifunc heap s1].
      split; [reflexivity|]. split; [apply lookup_alloc|]. auto.
  - intros Hsm Hnone. now rewrite Hrun, Hsm, Hnone.
Qed.

Lemma cadd_comm (a b : complex) : cadd a b = cadd b a.
Proof. destruct a, b. unfold cadd. cbn. f_equal; ring. Qed.

(** [f + c] for a SISO [f] when the fit of the constant succeeds. *)
Lemma add_scalar_siso (f : FRD tck) (c : complex) (s : state) (ws : list Qc)
      (ch : list complex) :
  heap s !! omega f = Some ws ->
  is_Some (fit_channels splprep ws (scale3 (ones3 (1, 1, length ws)%nat) c)) ->
  fresp f = reshape_1_1 ch -> length ch = length ws ->
  __add__ splprep f (ONum c) s =
  (Ok (mkFRD (S (length (heap s)))
             (reshape_1_1 (map (fun x => cadd x c) ch)) None),
   St (heap s ++ [ws; ws]) (warnings s)).
Proof.
  intros Hf [tbl Htbl] Hsiso Hlen.
  set (const := scale3 (ones3 (1, 1, length ws)%nat) c) in *.
  set (s1 := St (heap s ++ [ws]) (warnings s)).
  assert (Hconv : _convert_to_frd splprep (ONum c) (omega f) 1 1 s =
                  (Ok (mkFRD (length (heap s)) const (Some tbl)), s1)).
  { unfold _convert_to_frd.
    rewrite (bind_Ok _ _ _ _ _ (read_Ok _ _ _ Hf)).
    fold const. rewrite FRD_init_data by reflexivity. cbv zeta.
    now rewrite Htbl. }
  unfold __add__. rewrite (bind_Ok _ _ s s tt) by reflexivity.
  rewrite (bind_Ok _ _ _ _ _ Hconv).
  cbn [ninputs noutputs fresp const scale3 map3 ones3 shape3 dim0 dim1 fst snd].
  unfold ninputs, noutputs. rewrite Hsiso.
  cbn [reshape_1_1 dim0 dim1 shape3 fst snd Nat.eqb negb].
  change (Arr3 (1, 1, length ch)%nat [[ch]]) with (reshape_1_1 ch).
  assert (Hc : const = reshape_1_1 (map (fun _ => c) ch)).
  { unfold const. rewrite <- Hlen, ones3_siso.
    unfold scale3, map3, reshape_1_1. cbn. rewrite !length_map.
    do 3 f_equal. rewrite map_map. apply map_ext. intros _.
    apply cmul_c1_l. }
  fold const. rewrite Hc.
  rewrite (bind_Ok _ _ _ _ _
             (bcast3_siso cadd ch (map (fun _ => c) ch) (length ws) s1
                Hlen ltac:(now rewrite length_map))).
  rewrite (bind_Ok _ _ s1 s1 ws) by (apply read_Ok, lookup_alloc).
  rewrite FRD_init_data_plain
    by (cbn; now rewrite length_zip_with, length_map, Nat.min_id).
  rewrite zip_with_map_r. subst s1. cbn [heap warnings].
  rewrite length_app, <- app_assoc. cbn [length app].
  now rewrite Nat.add_1_r.
Qed.

(** X10: [f + c] for a number [c] first builds a smooth 1x1 constant
    FRD on [f]'s grid, so it fails with the spline error when that fit
    fails, also for an [f] without interpolant; it is refused with the
    summand error when [f] does not have exactly one input and one
    output; for a SISO [f] it adds [c] to every sample, on a copy of
    [f]'s grid in the stored order, and is not smooth. *)
Theorem add_scalar (f : FRD tck) (c : complex) (s : state) (ws : list Qc) :
  heap s !! omega f = Some ws ->
  let const := scale3 (ones3 (1, 1, length ws)%nat) c in
  let s1 := St (heap s ++ [ws]) (warnings s) in
  (fit_channels splprep ws const = None ->
   __add__ splprep f (ONum c) s = (Raise SplprepError, s1)) /\
  (is_Some (fit_channels splprep ws const) ->
   (ninputs f <> 1%nat ->
    __add__ splprep f (ONum c) s =
    (Raise (ValueError_summand_inputs (ninputs f) 1), s1)) /\
   (ninputs f = 1%nat -> noutputs f <> 1%nat ->
    __add__ splprep f (ONum c) s =
    (Raise (ValueError_summand_outputs (noutputs f) 1), s1)) /\
   (forall ch, fresp f = reshape_1_1 ch -> length ch = length ws ->
      __add__ splprep f (ONum c) s =
      (Ok (mkFRD (S (length (heap s)))
                 (reshape_1_1 (map (fun x => cadd x c) ch)) None),
       St (heap s ++ [ws; ws]) (warnings s)))).
Proof.
  intros Hf const s1.
  assert (Hconv : _convert_to_frd splprep (ONum c) (omega f) 1 1 s =
                  match fit_channels splprep ws const with
                  | Some tbl => (Ok (mkFRD (length (heap s)) const (Some tbl)), s1)
                  | None => (Raise SplprepError, s1)
                  end).
  { unfold _convert_to_frd.
    rewrite (bind_Ok _ _ _ _ _ (read_Ok _ _ _ Hf)).
    now rewrite FRD_init_data by reflexivity. }
  split.
  - intros Hnone. unfold __add__. rewrite (bind_Ok _ _ s s tt) by reflexivity.
    rewrite Hnone in Hconv. now rewrite (bind_Raise _ _ _ _ _ Hconv).
  - intros Hsome. split; [|split].
    3: { intros ch Hsiso Hlen. now apply add_scalar_siso. }
    all: destruct Hsome as [tbl Htbl]; rewrite Htbl in Hconv;
      unfold __add__; rewrite (bind_Ok _ _ s s tt) by reflexivity;
      rewrite (bind_Ok _ _ _ _ _ Hconv);
      cbn [ninputs noutputs fresp const scale3 map3 ones3 shape3 dim0 dim1 fst snd].
    + intros Hne. apply Nat.eqb_neq in Hne. now rewrite Hne.
    + intros Heq Hne. rewrite Heq. cbn [Nat.eqb negb].
      apply Nat.eqb_neq in Hne. now rewrite Hne.
Qed.

(** X20: [c - f] for a number [c] and a SISO [f] is computed as
    [(-f) + c]: every sample becomes [c - x], the result is not smooth,
    and three arrays are added to the store (the grids of [-f], of the
    constant and of the result), whatever the order of the grid.
    [c + f] is [f + c]. *)
Theorem rsub_scalar (f : FRD tck) (c : complex) (s : state) (ws : list Qc)
        (ch : list complex) :
  heap s !! omega f = Some ws ->
  fresp f = reshape_1_1 ch -> length ch = length ws ->
  is_Some (fit_channels splprep ws (scale3 (ones3 (1, 1, length ws)%nat) c)) ->
  __rsub__ splprep f (LNum c) s =
  (Ok (mkFRD (S (S (length (heap s))))
             (reshape_1_1 (map (fun x => csub c x) ch)) None),
   St (heap s ++ [ws; ws; ws]) (warnings s)) /\
  __radd__ splprep f (ONum c) s =
  (Ok (mkFRD (S (length (heap s)))
             (reshape_1_1 (map (fun x => cadd c x) ch)) None),
   St (heap s ++ [ws; ws]) (warnings s)).
Proof.
  intros Hf Hsiso Hlen Hfit. split.
  - unfold __rsub__, __radd__.
    rewrite (bind_Ok _ _ _ _ _
               (neg_run splprep f s ws Hf ltac:(now rewrite Hsiso))).
    rewrite (add_scalar_siso _ c _ ws (map cneg ch)).
    + cbn [heap warnings]. rewrite length_app, <- app_assoc. cbn [length app].
      rewrite Nat.add_1_r, map_map.
      assert (E : map (fun x => cadd (cneg x) c) ch = map (fun x => csub c x) ch).
      { apply map_ext. intros x. destruct x, c. unfold cadd, cneg, csub. cbn.
        f_equal; ring. }
      cbv beta. now rewrite E.
    + cbn [omega heap]. apply lookup_alloc.
    + exact Hfit.
    + cbn [fresp]. rewrite Hsiso. unfold neg3, map3, reshape_1_1. cbn.
      now rewrite length_map.
    + now rewrite length_map.
  - unfold __radd__. rewrite (add_scalar_siso f c s ws ch) by assumption.
    assert (E : map (fun x => cadd x c) ch = map (fun x => cadd c x) ch).
    { apply map_ext. intros x. apply cadd_comm. }
    now rewrite E.
Qed.

End Scalars.

(** [frd([5,7],[1,2]) - frd([3,4],[1,2])]. *)
Lemma sub_same_grid_witness :
  let f := siso_at 0 [rc 5; rc 7] in
  let g := siso_at 1 [rc 3; rc 4] in
  let s := St [[rq 1; rq 2]; [rq 1; rq 2]] [] in
  exists r s',
    __sub__ splprep_unit f (OFRD g) s = (Ok r, s') /\
    ifunc r = None /\
    heap s' !! omega r = Some [rq 1; rq 2] /\
    store_extends s s' /\
    forall i j k,
      (i < noutputs f)%nat -> (j < ninputs f)%nat -> (k < 2)%nat ->
      get3 (fresp r) i j k =
      csub (get3 (fresp f) i j k) (get3 (fresp g) i j k).
Proof.
  intros f g s.
  apply (sub_same_grid splprep_unit f g s [rq 1; rq 2] [rq 1; rq 2]);
    try reflexivity.
  repeat constructor. qc_order.
Defined.

(** [frd([1,2],[2,1]) * 3] on a grid that is not sorted. *)
Lemma mul_scalar_witness :
  let f := siso_at 0 [rc 1; rc 2] in
  let s := St [[rq 2; rq 1]] [] in
  exists r,
    __mul__ splprep_unit f (ONum (rc 3)) s =
      (Ok r, St [[rq 2; rq 1]; [rq 2; rq 1]] []) /\
    omega r = 1%nat /\
    fresp r = reshape_1_1 [rc 3; rc 6] /\ is_smooth r = false.
Proof.
  intros f s.
  destruct (proj1 (proj2 (mul_scalar splprep_unit f (rc 3) s [rq 2; rq 1]
                            eq_refl eq_refl)) (or_introl eq_refl))
    as (r & Hr & Hom & _ & Hfr & Hsm & _).
  exists r. split; [exact Hr|]. split; [exact Hom|]. split; [|exact Hsm].
  rewrite Hfr. by_compute.
Defined.

(** [frd([1,2],[2,1]) + 3], and the same sum on a 2x2 system. *)
Lemma add_scalar_witness :
  let f := siso_at 0 [rc 1; rc 2] in
  let s := St [[rq 2; rq 1]] [] in
  __add__ splprep_unit f (ONum (rc 3)) s =
  (Ok (mkFRD 2 (reshape_1_1 (map (fun x => cadd x (rc 3)) [rc 1; rc 2])) None),
   St (heap s ++ [[rq 2; rq 1]; [rq 2; rq 1]]) (warnings s)) /\
  __add__ splprep_unit (mkFRD 0 identity_2x2 None) (ONum (rc 3)) (St [[rq 1]] []) =
  (Raise (ValueError_summand_inputs 2 1), St [[rq 1]; [rq 1]] []).
Proof.
  intros f s. split.
  - refine (proj2 (proj2 (proj2 (add_scalar splprep_unit f (rc 3) s
                                   [rq 2; rq 1] _) _)) [rc 1; rc 2] _ _).
    + reflexivity.
    + now exists [[tt]].
    + reflexivity.
    + reflexivity.
  - refine (proj1 (proj2 (add_scalar splprep_unit (mkFRD 0 identity_2x2 None)
                            (rc 3) (St [[rq 1]] []) [rq 1] _) _) _).
    + reflexivity.
    + now exists [[tt]].
    + discriminate.
Defined.

(** ** Division *)

Section Division.
Context {tck : Type} (splprep : list Qc -> list complex -> option tck).

(** X11: on a common ascending grid, [f / g] and the reflected
    division by an FRD are refused with [NotImplementedError] as soon as
    one of the two has more than one input or output, and leave the
    store as it was; the division of a number by [f] has no such check:
    for an [f] without zero sample, [c / f] divides [c] by every entry
    of [f], whatever the shape, with [f]'s smoothing (for a smooth [f]
    the quotient is fitted again, and a failure of that fit is the
    outcome). *)
Theorem division_siso_only (f g : FRD tck) (s : state) (ws : list Qc) :
  heap s !! omega f = Some ws ->
  heap s !! omega g = Some ws ->
  Sorted Qcle ws ->
  dim2 (fresp f) = length ws ->
  ((1 < ninputs f)%nat \/ (1 < noutputs f)%nat \/
   (1 < ninputs g)%nat \/ (1 < noutputs g)%nat ->
   __truediv__ splprep f (OFRD g) s = (Raise NotImplementedError_truediv, s) /\
   __rtruediv__ splprep f (OFRD g) s = (Raise NotImplementedError_truediv, s)) /\
  (forall c,
     Forall (Forall (Forall (fun x => x <> c0))) (data3 (fresp f)) ->
     let fr := map3 (fun x => cdiv c x) (fresp f) in
     let s1 := St (heap s ++ [ws]) (warnings s) in
     (is_smooth f = false \/ is_Some (fit_channels splprep ws fr) ->
      exists r,
        __rtruediv__ splprep f (ONum c) s = (Ok r, s1) /\
        fresp r = fr /\ shape3 (fresp r) = shape3 (fresp f) /\
        is_smooth r = is_smooth f) /\
     (is_smooth f = true -> fit_channels splprep ws fr = None ->
      __rtruediv__ splprep f (ONum c) s = (Raise SplprepError, s1))).
Proof.
  intros Hf Hg Hsorted Hdim. split.
  - intros Hmimo.
    assert (Hcheck : Nat.ltb 1 (ninputs f) || Nat.ltb 1 (noutputs f) ||
                     Nat.ltb 1 (ninputs g) || Nat.ltb 1 (noutputs g) = true).
    { rewrite !orb_true_iff, !Nat.ltb_lt. tauto. }
    unfold __truediv__, __rtruediv__.
    split;
      rewrite (bind_Ok _ _ _ _ _
                 (convert_frd_match splprep g (omega f) ws ws 1 1 s
                    Hf Hsorted Hg eq_refl (all_near_refl ws)));
      now rewrite Hcheck.
  - intros c _ fr s1.
    assert (Hrun : __rtruediv__ splprep f (ONum c) s =
                   if is_smooth f then
                     match fit_channels splprep ws fr with
                     | Some tbl => (Ok (mkFRD (length (heap s)) fr (Some tbl)), s1)
                     | None => (Raise SplprepError, s1)
                     end
                   else (Ok (mkFRD (length (heap s)) fr None), s1)).
    { unfold __rtruediv__. rewrite (bind_Ok _ _ _ _ _ (read_Ok _ _ _ Hf)).
      fold fr. now rewrite FRD_init_data by exact Hdim. }
    split.
    + intros Hok. rewrite Hrun. destruct (is_smooth f) eqn:Hsm.
      * destruct Hok as [Hno|[tbl Htbl]]; [discriminate|]. rewrite Htbl.
        eexists. repeat split.
      * eexists. repeat split.
    + intros Hsm Hnone. now rewrite Hrun, Hsm, Hnone.
Qed.

(** X13: a negative power of a system with more than one input or
    output whose grid is stored in ascending order is refused with the
    [NotImplementedError] of the division, after the unity response has
    been built. *)
Theorem pow_negative_mimo (f : FRD tck) (s : state) (ws : list Qc) (n : Z) :
  heap s !! omega f = Some ws ->
  Sorted Qcle ws ->
  dim2 (fresp f) = length ws ->
  (1 < ninputs f)%nat \/ (1 < noutputs f)%nat ->
  (n < 0)%Z ->
  __pow__ splprep f (ExpInt n) s =
  (Raise NotImplementedError_truediv, St (heap s ++ [ws]) (warnings s)).
Proof.
  intros Hf Hsorted Hdim Hmimo Hn. unfold __pow__. cbn [pow_rec].
  replace (n =? 0)%Z with false by (symmetry; apply Z.eqb_neq; lia).
  replace (0 <? n)%Z with false by (symmetry; apply Z.ltb_ge; lia).
  rewrite (bind_Ok _ _ _ _ _ (read_Ok _ _ _ Hf)).
  rewrite (bind_Ok _ _ _ _ _
             (FRD_init_data_plain splprep (ones3 (shape3 (fresp f))) ws s Hdim)).
  set (u := mkFRD (length (heap s)) (ones3 (shape3 (fresp f))) None).
  set (s1 := St (heap s ++ [ws]) (warnings s)).
  apply bind_Raise. unfold __truediv__.
  rewrite (bind_Ok _ _ _ _ _
             (convert_frd_match splprep f (omega u) ws ws 1 1 s1
                (lookup_alloc _ _) Hsorted (lookup_alloc_old _ _ _ _ Hf)
                eq_refl (all_near_refl ws))).
  replace (Nat.ltb 1 (ninputs u) || Nat.ltb 1 (noutputs u) ||
           Nat.ltb 1 (ninputs f) || Nat.ltb 1 (noutputs f)) with true;
    [reflexivity|].
  symmetry. rewrite !orb_true_iff, !Nat.ltb_lt. tauto.
Qed.

End Division.

(** [f / f] for a 2x2 system on the grid [[1]], and [6 / f]. *)
Lemma division_siso_only_witness :
  let f := mkFRD 0 (Arr3 (2, 2, 1)%nat [[[rc 1]; [rc 2]]; [[rc 3]; [rc 4]]])
                 (None : option (list (list unit))) in
  let s := St [[rq 1]] [] in
  (__truediv__ splprep_unit f (OFRD f) s = (Raise NotImplementedError_truediv, s) /\
   __rtruediv__ splprep_unit f (OFRD f) s = (Raise NotImplementedError_truediv, s)) /\
  exists r,
    __rtruediv__ splprep_unit f (ONum (rc 6)) s =
      (Ok r, St [[rq 1]; [rq 1]] []) /\
    fresp r = Arr3 (2, 2, 1)%nat [[[rc 6]; [rc 3]]; [[rc 2]; [RtoC (q 3 2)]]] /\
    is_smooth r = false.
Proof.
  intros f s.
  pose proof (division_siso_only splprep_unit f f s [rq 1]
                eq_refl eq_refl
                (Sorted_cons (Sorted_nil Qcle) (HdRel_nil Qcle (rq 1)))
                eq_refl) as [H1 H2].
  split; [apply H1; left; cbn; lia|].
  destruct (proj1 (H2 (rc 6) ltac:(repeat constructor; qc_order))
                  (or_introl eq_refl))
    as (r & Hr & Hfr & _ & Hsm).
  exists r. split; [exact Hr|]. split; [|exact Hsm].
  rewrite Hfr. by_compute.
Defined.

(** [I ** -1] for the 2x2 identity response. *)
Lemma pow_negative_mimo_witness :
  let f := mkFRD 0 identity_2x2 (None : option (list (list unit))) in
  let s := St [[rq 1]] [] in
  __pow__ splprep_unit f (ExpInt (-1)) s =
  (Raise NotImplementedError_truediv, St (heap s ++ [[rq 1]]) (warnings s)).
Proof.
  intros f s.
  apply (pow_negative_mimo splprep_unit f s [rq 1] (-1)%Z).
  - reflexivity.
  - repeat constructor.
  - reflexivity.
  - left. cbn. lia.
  - lia.
Defined.

(** ** Feedback *)

Lemma inv_shape (A X : matrix) :
  inv A = Some X -> mshape X = (fst (mshape A), fst (mshape A)).
Proof.
  unfold inv. destruct (negb _); [discriminate|].
  destruct (foldl _ _ _); [|discriminate]. now intros [= <-].
Qed.

Lemma stack_matmul_same (As Bs : list matrix) (n : nat) (s : state) :
  length As = n -> length Bs = n ->
  stack_matmul As Bs s =
  (Ok (map (fun k => matmul (nth k As (Mat (0, 0)%nat []))
                            (nth k Bs (Mat (0, 0)%nat []))) (seq 0 n)), s).
Proof.
  intros Ha Hb. unfold stack_matmul. rewrite Ha, Hb, bdim_same.
  unfold ret. do 2 f_equal. apply map_ext_in. intros k Hk.
  apply in_seq in Hk. now rewrite bix_lt by lia.
Qed.

Lemma mapM_map_some {A B C} (h : B -> option C) (M : A -> B) (X : A -> C)
      (l : list A) :
  (forall k, In k l -> h (M k) = Some (X k)) ->
  mapM h (map M l) = Some (map X l).
Proof.
  induction l as [|k l IH]; intros H; [reflexivity|].
  cbn. rewrite (H k) by now left. cbn.
  rewrite IH by (intros k' Hk'; apply H; now right). reflexivity.
Qed.

Lemma moveaxis_nth (a : ndarray3) (k : nat) :
  (k < dim2 a)%nat -> nth k (moveaxis_2_0 a) (Mat (0, 0)%nat []) = slice a k.
Proof. intros Hk. unfold moveaxis_2_0. now rewrite nth_map_seq. Qed.

Lemma length_moveaxis (a : ndarray3) : length (moveaxis_2_0 a) = dim2 a.
Proof. unfold moveaxis_2_0. now rewrite length_map, length_seq. Qed.

Lemma mscale_one (p m : nat) (F : nat -> nat -> complex) :
  mscale c1 (mbuild p m F) = mbuild p m F.
Proof.
  unfold mscale. cbn [mbuild mshape fst snd].
  apply mbuild_ext. intros i j Hi Hj.
  now rewrite mget_mbuild, cmul_c1_l.
Qed.

Section Feedback.
Context {tck : Type} (splprep : list Qc -> list complex -> option tck).

(** X15: for two FRDs on a common ascending grid with matching sizes,
    [feedback] returns, whatever [sign] is, the FRD whose slice at every
    frequency index is [G @ inv(I + H @ G)] (the closed loop of the
    specification for [sign = -1]), where [inv(I + H @ G)] is what
    [numpy.linalg.inv] returns for that index, on a copy of the grid and
    with the smoothing of [self] (for a smooth [self] the result is
    fitted again, and that fit has to succeed); with sizes that do not
    match it raises the feedback mismatch error and stores nothing. *)
Theorem feedback_closed_loop (f g : FRD tck) (sign : Qc) (s : state)
        (ws : list Qc) :
  heap s !! omega f = Some ws ->
  heap s !! omega g = Some ws ->
  Sorted Qcle ws ->
  dim2 (fresp f) = length ws -> dim2 (fresp g) = length ws ->
  let loop k := madd (eye (ninputs f))
                     (matmul (slice (fresp g) k) (slice (fresp f) k)) in
  (noutputs f <> ninputs g \/ ninputs f <> noutputs g ->
   feedback splprep f (OFRD g) sign s = (Raise ValueError_feedback, s)) /\
  (noutputs f = ninputs g -> ninputs f = noutputs g ->
   forall X : nat -> matrix,
     (forall k, (k < length ws)%nat -> inv (loop k) = Some (X k)) ->
     (is_smooth f = true ->
      is_Some (fit_channels splprep ws
                 (moveaxis_0_2 (noutputs f) (ninputs f)
                    (map (fun k => matmul (slice (fresp f) k) (X k))
                         (seq 0 (length ws)))))) ->
     exists r,
       feedback splprep f (OFRD g) sign s =
         (Ok r, St (heap s ++ [ws]) (warnings s)) /\
       shape3 (fresp r) = (noutputs f, ninputs f, length ws) /\
       is_smooth r = is_smooth f /\
       forall k, (k < length ws)%nat ->
         slice (fresp r) k = matmul (slice (fresp f) k) (X k) /\
         closed_loop_spec (slice (fresp f) k) (slice (fresp g) k) (q (-1) 1)
         = Some (slice (fresp r) k)).
Proof.
  intros Hf Hg Hsorted Hdf Hdg loop.
  assert (Hconv : _convert_to_frd splprep (OFRD g) (omega f) 1 1 s = (Ok g, s))
    by (apply (convert_frd_match splprep g (omega f) ws ws);
        auto using all_near_refl).
  split.
  - intros Hbad. unfold feedback. rewrite (bind_Ok _ _ _ _ _ Hconv).
    replace (negb (Nat.eqb (noutputs f) (ninputs g)) ||
             negb (Nat.eqb (ninputs f) (noutputs g))) with true; [reflexivity|].
    symmetry. rewrite orb_true_iff, !negb_true_iff, !Nat.eqb_neq. exact Hbad.
  - intros Hs1 Hs2 X HX Hfit.
    assert (Hlf : length (moveaxis_2_0 (fresp f)) = length ws)
      by (now rewrite length_moveaxis).
    assert (Hlg : length (moveaxis_2_0 (fresp g)) = length ws)
      by (now rewrite length_moveaxis).
    assert (Hstart : feedback splprep f (OFRD g) sign s =
      match mapM inv (map loop (seq 0 (length ws))) with
      | None => (Raise LinAlgError, s)
      | Some invs =>
          (do resfresp <- stack_matmul (moveaxis_2_0 (fresp f)) invs;
           let fr := moveaxis_0_2 (noutputs f) (ninputs f) resfresp in
           do oo <- read (omega g);
           FRD_init splprep (ArgsData (Resp3 fr) (Freq1 oo)) (is_smooth f)) s
      end).
    { unfold feedback. rewrite (bind_Ok _ _ _ _ _ Hconv).
      replace (Nat.eqb (noutputs f) (ninputs g)) with true
        by (symmetry; now apply Nat.eqb_eq).
      replace (Nat.eqb (ninputs f) (noutputs g)) with true
        by (symmetry; now apply Nat.eqb_eq).
      cbn [negb orb].
      rewrite (bind_Ok _ _ _ _ _
                 (stack_matmul_same (moveaxis_2_0 (fresp g))
                    (moveaxis_2_0 (fresp f)) (length ws) s Hlg Hlf)).
      rewrite map_map.
      replace (map _ (seq 0 (length ws))) with (map loop (seq 0 (length ws))).
      - now destruct (mapM inv _).
      - apply map_ext_in. intros k Hk. apply in_seq in Hk. unfold loop.
        now rewrite !moveaxis_nth by lia. }
    rewrite Hstart. clear Hstart.
    rewrite (mapM_map_some inv loop X)
      by (intros k Hk; apply in_seq in Hk; apply HX; lia).
    assert (HlX : length (map X (seq 0 (length ws))) = length ws)
      by (now rewrite length_map, length_seq).
    rewrite (bind_Ok _ _ _ _ _
               (stack_matmul_same (moveaxis_2_0 (fresp f))
                  (map X (seq 0 (length ws))) (length ws) s Hlf HlX)).
    cbn zeta.
    rewrite (bind_Ok _ _ _ _ _ (read_Ok _ _ _ Hg)).
    replace (map (fun k => matmul (nth k (moveaxis_2_0 (fresp f)) (Mat (0, 0)%nat []))
                                  (nth k (map X (seq 0 (length ws))) (Mat (0, 0)%nat [])))
                 (seq 0 (length ws)))
      with (map (fun k => matmul (slice (fresp f) k) (X k)) (seq 0 (length ws)))
      by (apply map_ext_in; intros k Hk; apply in_seq in Hk;
          rewrite moveaxis_nth by lia; now rewrite (nth_map_seq X) by lia).
    set (ms := map _ (seq 0 (length ws))) in *.
    assert (Hms : length ms = length ws)
      by (unfold ms; now rewrite length_map, length_seq).
    rewrite FRD_init_data
      by (unfold moveaxis_0_2, dim2; cbn; exact Hms).
    assert (Hslice : forall k, (k < length ws)%nat ->
              slice (moveaxis_0_2 (noutputs f) (ninputs f) ms) k =
              matmul (slice (fresp f) k) (X k)).
    { intros k Hk. unfold moveaxis_0_2.
      rewrite slice_build3 by (now rewrite Hms).
      unfold ms.
      rewrite (nth_map_seq (fun k => matmul (slice (fresp f) k) (X k))) by exact Hk.
      unfold matmul at 2. rewrite (inv_shape _ _ (HX k Hk)).
      cbn [slice mshape fst snd loop madd mbuild eye].
      apply mbuild_ext. intros i j Hi Hj.
      unfold matmul. rewrite (inv_shape _ _ (HX k Hk)).
      cbn [slice mshape fst snd loop madd mbuild eye].
      now rewrite mget_mbuild. }
    assert (Hspec : forall k, (k < length ws)%nat ->
              closed_loop_spec (slice (fresp f) k) (slice (fresp g) k) (q (-1) 1)
              = Some (matmul (slice (fresp f) k) (X k))).
    { intros k Hk.
      assert (E : madd (eye (snd (mshape (slice (fresp f) k))))
                       (mscale c1 (matmul (slice (fresp g) k)
                                          (slice (fresp f) k))) = loop k).
      { unfold loop. f_equal. unfold matmul. apply mscale_one. }
      unfold closed_loop_spec.
      replace (RtoC (Qcopp (q (-1) 1))) with c1
        by (unfold c1; f_equal; apply Qc_is_canon; reflexivity).
      now rewrite E, (HX k Hk). }
    cbn zeta. destruct (is_smooth f) eqn:Hsm.
    + destruct (Hfit eq_refl) as [tbl ->].
      eexists. split; [reflexivity|]. cbn [fresp is_smooth ifunc].
      split; [unfold moveaxis_0_2; cbn; now rewrite Hms|].
      split; [reflexivity|]. intros k Hk.
      split; [now apply Hslice|]. rewrite Hslice by exact Hk. now apply Hspec.
    + eexists. split; [reflexivity|]. cbn [fresp is_smooth ifunc].
      split; [unfold moveaxis_0_2; cbn; now rewrite Hms|].
      split; [reflexivity|]. intros k Hk.
      split; [now apply Hslice|]. rewrite Hslice by exact Hk. now apply Hspec.
Qed.

End Feedback.

(** A 2x2 system with the identity in the loop. *)
Lemma feedback_closed_loop_witness :
  let f := mkFRD 0 (Arr3 (2, 2, 1)%nat [[[rc 1]; [rc 2]]; [[rc 3]; [rc 4]]])
                 (None : option (list (list unit))) in
  let g := mkFRD 1 identity_2x2 (None : option (list (list unit))) in
  let s := St [[rq 1]; [rq 1]] [] in
  let X := fun _ : nat =>
             Mat (2, 2)%nat [[RtoC (q 5 4); RtoC (q (-1) 2)];
                             [RtoC (q (-3) 4); RtoC (q 1 2)]] in
  exists r,
    feedback splprep_unit f (OFRD g) (rq 1) s =
      (Ok r, St (heap s ++ [[rq 1]]) (warnings s)) /\
    shape3 (fresp r) = (noutputs f, ninputs f, 1%nat) /\
    is_smooth r = is_smooth f /\
    forall k, (k < 1)%nat ->
      slice (fresp r) k = matmul (slice (fresp f) k) (X k) /\
      closed_loop_spec (slice (fresp f) k) (slice (fresp g) k) (q (-1) 1)
      = Some (slice (fresp r) k).
Proof.
  intros f g s X.
  refine (proj2 (feedback_closed_loop splprep_unit f g (rq 1) s [rq 1]
                   _ _ _ _ _) _ _ X _ _); try reflexivity.
  - repeat constructor.
  - intros k Hk. cbn in Hk. assert (k = 0)%nat as -> by lia. by_compute.
  - discriminate.
Defined.

(** ** The reflected product *)

Section ReflectedProduct.
Context {tck : Type} (splprep : list Qc -> list complex -> option tck).

(** X16: on a common ascending grid the reflected product
    [g.__rmul__(f)] is the product [f * g]: the same FRD, the same store,
    or the same size-mismatch error with the same two counts. *)
Theorem rmul_is_mul (f g : FRD tck) (s : state) (ws : list Qc) :
  heap s !! omega f = Some ws ->
  heap s !! omega g = Some ws ->
  Sorted Qcle ws ->
  __rmul__ splprep g (OFRD f) s = __mul__ splprep f (OFRD g) s.
Proof.
  intros Hf Hg Hsorted. unfold __rmul__, __mul__.
  rewrite (bind_Ok _ _ _ _ _
             (convert_frd_match splprep f (omega g) ws ws 1 1 s
                Hg Hsorted Hf eq_refl (all_near_refl ws))).
  rewrite (bind_Ok _ _ _ _ _
             (convert_frd_match splprep g (omega f) ws ws 1 1 s
                Hf Hsorted Hg eq_refl (all_near_refl ws))).
  rewrite (Nat.eqb_sym (noutputs g)).
  destruct (negb _); [reflexivity|].
  rewrite (bind_Ok _ _ _ _ _ (read_Ok _ _ _ Hg)).
  rewrite (bind_Ok _ _ _ _ _ (read_Ok _ _ _ Hf)).
  now rewrite (andb_comm (is_smooth g)).
Qed.

End ReflectedProduct.

(** A 1x2 system times a 2x1 system, called from the right. *)
Lemma rmul_is_mul_witness :
  let f := mkFRD 0 (Arr3 (1, 2, 1)%nat [[[rc 1]; [rc 2]]]) (None : option (list (list unit))) in
  let g := mkFRD 1 (Arr3 (2, 1, 1)%nat [[[rc 3]]; [[rc 4]]]) None in
  let s := St [[rq 1]; [rq 1]] [] in
  __rmul__ splprep_unit g (OFRD f) s = __mul__ splprep_unit f (OFRD g) s.
Proof.
  intros f g s.
  apply (rmul_is_mul splprep_unit f g s [rq 1]); try reflexivity.
  repeat constructor.
Defined.

(** ** Every result has one sample per frequency *)

Section Consistency.
Context {tck : Type} (splprep : list Qc -> list complex -> option tck).

Lemma FRD_init_data_consistent (d : resp_like) (w : freq_like) (smooth : bool)
      (s s' : state) (r : FRD tck) :
  FRD_init splprep (ArgsData d w) smooth s = (Ok r, s') ->
  grid_consistent s' r.
Proof.
  unfold FRD_init. intros H.
  apply bind_Ok_inv in H as ([om fr] & s1 & H1 & H).
  assert (exists ws, heap s1 !! om = Some ws /\ dim2 fr = length ws) as (ws & Hws & Hdim).
  { destruct d, w; try discriminate H1;
      match type of H1 with
      | context [Nat.eqb ?a ?b] => destruct (Nat.eqb a b) eqn:E; [|discriminate H1]
      end;
      apply Nat.eqb_eq in E; unfold bind, alloc, ret in H1; inversion H1; subst;
      eexists; (split; [apply lookup_alloc | exact E]). }
  exists ws. destruct smooth.
  - apply bind_Ok_inv in H as (u & s2 & Hu & H).
    apply read_Ok_inv in Hu as [_ ->].
    destruct (fit_channels splprep u fr); [|discriminate].
    inversion H; subst. now split.
  - inversion H; subst. now split.
Qed.

Ltac run_inv H :=
  repeat
    match type of H with
    | bind _ _ _ = (Ok _, _) =>
        let a := fresh "a" in let s := fresh "s" in let E := fresh "E" in
        apply bind_Ok_inv in H as (a & s & E & H)
    | raise _ _ = (Ok _, _) => discriminate H
    | (if ?b then _ else _) _ = (Ok _, _) => destruct b
    | (match ?x with Some _ => _ | None => _ end) _ = (Ok _, _) => destruct x
    end.

Lemma neg_consistent (f r : FRD tck) (s s' : state) :
  __neg__ splprep f s = (Ok r, s') -> grid_consistent s' r.
Proof.
  unfold __neg__. intros H. run_inv H.
  eapply FRD_init_data_consistent, H.
Qed.

Lemma add_consistent (f r : FRD tck) (o : operand tck) (s s' : state) :
  __add__ splprep f o s = (Ok r, s') -> grid_consistent s' r.
Proof.
  unfold __add__. intros H. run_inv H.
  eapply FRD_init_data_consistent, H.
Qed.

Lemma sub_consistent (f r : FRD tck) (o : operand tck) (s s' : state) :
  __sub__ splprep f o s = (Ok r, s') -> grid_consistent s' r.
Proof.
  unfold __sub__. intros H. destruct o; run_inv H;
    eapply add_consistent, H.
Qed.

Lemma mul_consistent (f r : FRD tck) (o : operand tck) (s s' : state) :
  __mul__ splprep f o s = (Ok r, s') -> grid_consistent s' r.
Proof.
  unfold __mul__. intros H. destruct o; run_inv H;
    eapply FRD_init_data_consistent, H.
Qed.

Lemma rmul_consistent (f r : FRD tck) (o : operand tck) (s s' : state) :
  __rmul__ splprep f o s = (Ok r, s') -> grid_consistent s' r.
Proof.
  unfold __rmul__. intros H. destruct o; run_inv H;
    eapply FRD_init_data_consistent, H.
Qed.

Lemma truediv_consistent (f r : FRD tck) (o : operand tck) (s s' : state) :
  __truediv__ splprep f o s = (Ok r, s') -> grid_consistent s' r.
Proof.
  unfold __truediv__. intros H. destruct o; run_inv H;
    eapply FRD_init_data_consistent, H.
Qed.

Lemma rtruediv_consistent (f r : FRD tck) (o : operand tck) (s s' : state) :
  __rtruediv__ splprep f o s = (Ok r, s') -> grid_consistent s' r.
Proof.
  unfold __rtruediv__. intros H. destruct o; run_inv H;
    first [eapply FRD_init_data_consistent, H | eapply truediv_consistent, H].
Qed.

Lemma pow_rec_consistent (fuel : nat) (f r : FRD tck) (n : Z) (s s' : state) :
  pow_rec splprep fuel f n s = (Ok r, s') -> grid_consistent s' r.
Proof.
  destruct fuel as [|fuel]; cbn [pow_rec]; intros H; [discriminate|].
  destruct (Z.eqb n 0); [|destruct (Z.ltb 0 n)]; run_inv H.
  - eapply FRD_init_data_consistent, H.
  - eapply mul_consistent, H.
  - eapply mul_consistent, H.
Qed.

Lemma feedback_consistent (f r : FRD tck) (o : operand tck) (sign : Qc)
      (s s' : state) :
  feedback splprep f o sign s = (Ok r, s') -> grid_consistent s' r.
Proof.
  unfold feedback. intros H. run_inv H.
  eapply FRD_init_data_consistent, H.
Qed.

(** X17: whatever the operands, an FRD returned by the constructor from
    (response, frequencies) data or by an operator (negation, sum,
    difference, product, quotient, their reflected forms, integer power,
    feedback) refers to a stored frequency array with exactly as many
    entries as its response has samples along the last axis. *)
Theorem results_grid_consistent (f r : FRD tck) (o : operand tck)
        (lo : left_operand tck) (e : exponent) (sign : Qc)
        (d : resp_like) (w : freq_like) (smooth : bool) (s s' : state) :
  FRD_init splprep (ArgsData d w) smooth s = (Ok r, s') \/
  __neg__ splprep f s = (Ok r, s') \/
  __add__ splprep f o s = (Ok r, s') \/
  __radd__ splprep f o s = (Ok r, s') \/
  __sub__ splprep f o s = (Ok r, s') \/
  __rsub__ splprep f lo s = (Ok r, s') \/
  __mul__ splprep f o s = (Ok r, s') \/
  __rmul__ splprep f o s = (Ok r, s') \/
  __truediv__ splprep f o s = (Ok r, s') \/
  __rtruediv__ splprep f o s = (Ok r, s') \/
  __pow__ splprep f e s = (Ok r, s') \/
  feedback splprep f o sign s = (Ok r, s') ->
  grid_consistent s' r.
Proof.
  intros [H|[H|[H|[H|[H|[H|[H|[H|[H|[H|[H|H]]]]]]]]]]].
  - eapply FRD_init_data_consistent, H.
  - eapply neg_consistent, H.
  - eapply add_consistent, H.
  - eapply add_consistent, H.
  - eapply sub_consistent, H.
  - unfold __rsub__ in H. apply bind_Ok_inv in H as (ns & s1 & _ & H).
    destruct lo; eapply add_consistent, H.
  - eapply mul_consistent, H.
  - eapply rmul_consistent, H.
  - eapply truediv_consistent, H.
  - eapply rtruediv_consistent, H.
  - destruct e; try discriminate H. eapply pow_rec_consistent, H.
  - eapply feedback_consistent, H.
Qed.

End Consistency.

(** The negation of a SISO sample. *)
Lemma results_grid_consistent_witness :
  let f := siso_at 0 [rc 2] in
  let s := St [[rq 1]] [] in
  grid_consistent (St [[rq 1]; [rq 1]] [])
                  (mkFRD 1 (reshape_1_1 [rc (-2)]) (None : option (list (list unit)))).
Proof.
  intros f s.
  apply (results_grid_consistent splprep_unit f _ (ONum c0) (LNum c0) ExpOther
           (rq 1) (Resp0 c0) (Freq0 (rq 1)) false s).
  right; left. by_compute.
Defined.

(** ** Constants as operands *)

Section Constants.
Context {tck : Type} (splprep : list Qc -> list complex -> option tck).

Lemma nth_repeat_lt {A} (x d : A) (n k : nat) :
  (k < n)%nat -> nth k (repeat x n) d = x.
Proof.
  revert k. induction n as [|n IH]; intros [|k] Hk; cbn; try lia; auto.
  apply IH. lia.
Qed.

Lemma get3_ones3 (p m n i j k : nat) :
  (i < p)%nat -> (j < m)%nat -> (k < n)%nat -> get3 (ones3 (p, m, n)) i j k = c1.
Proof.
  intros Hi Hj Hk. unfold get3, ones3. cbn [data3 fst snd].
  rewrite (nth_repeat_lt _ _ _ _ Hi), (nth_repeat_lt _ _ _ _ Hj).
  now apply nth_repeat_lt.
Qed.

Lemma cmul_c0_l (c : complex) : cmul c0 c = c0.
Proof. destruct c. unfold cmul, c0, RtoC. cbn. f_equal; ring. Qed.

(** X18: a constant operand becomes a smooth FRD on the caller's grid as
    it is stored (no sort).  A number fills an [outputs x inputs x F]
    response with itself; a constant matrix fills a response of the
    matrix's own shape, whatever [inputs] and [outputs] are, with its
    entries at every frequency.  The only way to fail is the spline fit:
    for a number its error is passed on, for a matrix it is replaced by
    the cannot-convert TypeError, which is also what any other operand
    gets. *)
Theorem convert_constant (l : loc) (inputs outputs : nat) (s : state)
        (ws : list Qc) :
  heap s !! l = Some ws ->
  let s1 := St (heap s ++ [ws]) (warnings s) in
  (forall c : complex,
     let fr := scale3 (ones3 (outputs, inputs, length ws)) c in
     (exists r, _convert_to_frd splprep (ONum c) l inputs outputs s = (Ok r, s1) /\
                heap s1 !! omega r = Some ws /\ fresp r = fr /\ is_smooth r = true /\
                shape3 (fresp r) = (outputs, inputs, length ws) /\
                forall i j k, (i < outputs)%nat -> (j < inputs)%nat ->
                              (k < length ws)%nat -> get3 (fresp r) i j k = c) \/
     (fit_channels splprep ws fr = None /\
      _convert_to_frd splprep (ONum c) l inputs outputs s = (Raise SplprepError, s1))) /\
  (forall (p m : nat) (rows : list (list Qc)),
     let fr := build3 p m (length ws)
                 (fun i j _ => RtoC (nth j (nth i rows []) 0%Qc)) in
     (exists r, _convert_to_frd splprep (OMat (p, m) rows) l inputs outputs s = (Ok r, s1) /\
                heap s1 !! omega r = Some ws /\ fresp r = fr /\ is_smooth r = true /\
                shape3 (fresp r) = (p, m, length ws) /\
                forall i j k, (i < p)%nat -> (j < m)%nat -> (k < length ws)%nat ->
                              get3 (fresp r) i j k = RtoC (nth j (nth i rows []) 0%Qc)) \/
     (fit_channels splprep ws fr = None /\
      _convert_to_frd splprep (OMat (p, m) rows) l inputs outputs s
      = (Raise TypeError_convert, s1))) /\
  _convert_to_frd splprep OOther l inputs outputs s = (Raise TypeError_convert, s).
Proof.
  intros Hl s1. split; [|split]; [| |reflexivity].
  - intros c fr. unfold _convert_to_frd.
    rewrite (bind_Ok _ _ _ _ _ (read_Ok _ _ _ Hl)).
    fold fr. rewrite (FRD_init_data splprep fr ws true s eq_refl). cbv zeta.
    destruct (fit_channels splprep ws fr) as [tbl|] eqn:Hfit.
    + left. eexists. split; [reflexivity|]. cbn [omega fresp].
      repeat split.
      * apply lookup_alloc.
      * intros i j k Hi Hj Hk. unfold fr, scale3.
        rewrite get3_map3 by apply cmul_c0_l.
        rewrite get3_ones3 by assumption.
        destruct c. unfold cmul, c1, RtoC. cbn. f_equal; ring.
    + right. now split.
  - intros p m rows fr. unfold _convert_to_frd, try_except.
    rewrite (bind_Ok _ _ _ _ _ (read_Ok _ _ _ Hl)).
    fold fr. rewrite (FRD_init_data splprep fr ws true s eq_refl). cbv zeta.
    destruct (fit_channels splprep ws fr) as [tbl|] eqn:Hfit.
    + left. eexists. split; [reflexivity|]. cbn [omega fresp].
      repeat split.
      * apply lookup_alloc.
      * intros i j k Hi Hj Hk. unfold fr. now rewrite get3_build3.
    + right. now split.
Qed.

End Constants.

(** The number 3 as a 1x2 system on the unsorted grid [2, 1]. *)
Lemma convert_constant_witness :
  let s := St [[rq 2; rq 1]] [] in
  exists r,
    _convert_to_frd splprep_unit (ONum (rc 3)) 0 2 1 s =
      (Ok r, St [[rq 2; rq 1]; [rq 2; rq 1]] []) /\
    is_smooth r = true /\
    get3 (fresp r) 0 1 1 = rc 3.
Proof.
  intros s.
  destruct (proj1 (convert_constant splprep_unit 0 2 1 s [rq 2; rq 1] eq_refl) (rc 3))
    as [(r & Hr & _ & _ & Hsm & _ & Hget)|[Hfit _]].
  - exists r. split; [exact Hr|]. split; [exact Hsm|]. apply Hget; cbn; lia.
  - discriminate Hfit.
Defined.

(** [3 - frd([1,2],[2,1])] and [3 + frd([1,2],[2,1])]. *)
Lemma rsub_scalar_witness :
  let f := siso_at 0 [rc 1; rc 2] in
  let s := St [[rq 2; rq 1]] [] in
  __rsub__ splprep_unit f (LNum (rc 3)) s =
  (Ok (mkFRD 3 (reshape_1_1 (map (fun x => csub (rc 3) x) [rc 1; rc 2])) None),
   St (heap s ++ [[rq 2; rq 1]; [rq 2; rq 1]; [rq 2; rq 1]]) (warnings s)) /\
  __radd__ splprep_unit f (ONum (rc 3)) s =
  (Ok (mkFRD 2 (reshape_1_1 (map (fun x => cadd (rc 3) x) [rc 1; rc 2])) None),
   St (heap s ++ [[rq 2; rq 1]; [rq 2; rq 1]]) (warnings s)).
Proof.
  intros f s.
  apply (rsub_scalar splprep_unit f (rc 3) s [rq 2; rq 1] [rc 1; rc 2]);
    try reflexivity.
  eexists. reflexivity.
Defined.

(** ** The checks of the constructor *)

Section Constructor.
Context {tck : Type} (splprep : list Qc -> list complex -> option tck).

(** X19: the constructor called with (response, frequencies) counts the
    samples of the response (1 for a scalar, the length of a 1-d array,
    the last extent of a 3-d array) and the frequencies (1 for a scalar,
    the length of a 1-d array).  If either rank is not accepted or the
    counts differ it raises the TypeError of the data constructor and
    stores nothing.  If they agree, a construction without [smooth]
    succeeds: the frequencies are stored as a new array in the given
    order, 0-d and 1-d responses become 1x1 systems, a 3-d response is
    kept as it is. *)
Theorem ctor_data_checks (d : resp_like) (w : freq_like) (smooth : bool)
        (s : state) :
  let samples := match d with
                 | Resp0 _ => Some 1%nat
                 | Resp1 l => Some (length l)
                 | Resp3 a => Some (dim2 a)
                 | RespND _ => None
                 end in
  let grid := match w with
              | Freq0 x => Some [x]
              | Freq1 ws => Some ws
              | FreqND _ => None
              end in
  (samples = None \/ grid = None \/ samples <> length <$> grid ->
   FRD_init splprep (ArgsData d w) smooth s =
   (Raise TypeError_data_constructor, s)) /\
  (forall ws, grid = Some ws -> samples = Some (length ws) ->
     exists r,
       FRD_init splprep (ArgsData d w) false s =
       (Ok r, St (heap s ++ [ws]) (warnings s)) /\
       omega r = length (heap s) /\ is_smooth r = false /\
       dim2 (fresp r) = length ws /\
       match d with
       | Resp0 c => fresp r = reshape_1_1 [c]
       | Resp1 l => fresp r = reshape_1_1 l
       | Resp3 a => fresp r = a
       | RespND _ => False
       end).
Proof.
  intros samples grid. split.
  - intros H. unfold FRD_init.
    destruct d, w; cbn in samples, grid; subst samples grid;
      try reflexivity;
      try (destruct H as [H|[H|H]]; discriminate H).
    all: destruct H as [H|[H|H]]; try discriminate H;
      cbn [fmap option_fmap option_map] in H;
      unfold bind;
      match goal with
      | |- context [Nat.eqb ?a ?b] =>
          destruct (Nat.eqb a b) eqn:E; [apply Nat.eqb_eq in E|reflexivity]
      end;
      exfalso; apply H; cbn in E |- *; congruence.
  - intros ws Hgrid Hsamples. unfold FRD_init.
    destruct d, w; cbn in samples, grid; subst samples grid;
      try discriminate Hgrid; try discriminate Hsamples;
      inversion Hgrid; subst; inversion Hsamples as [Hn];
      unfold bind, alloc, ret;
      cbn [dim2 shape3 reshape_1_1 snd length];
      try rewrite Hn; rewrite ?Nat.eqb_refl;
      eexists; (split; [reflexivity|]); cbn; auto.
Qed.

End Constructor.

(** [frd([1,1,1],[1,2,3,4])] is refused; [frd([1,2],[2,1])] is built. *)
Lemma ctor_data_checks_witness :
  FRD_init splprep_unit (ArgsData (Resp1 [rc 1; rc 1; rc 1])
                                  (Freq1 [rq 1; rq 2; rq 3; rq 4])) false empty_state
  = (Raise TypeError_data_constructor, empty_state) /\
  exists r,
    FRD_init splprep_unit (ArgsData (Resp1 [rc 1; rc 2]) (Freq1 [rq 2; rq 1]))
             false empty_state
    = (Ok r, St [[rq 2; rq 1]] []) /\
    fresp r = reshape_1_1 [rc 1; rc 2].
Proof.
  split.
  - apply (ctor_data_checks splprep_unit). right; right. discriminate.
  - destruct (proj2 (ctor_data_checks splprep_unit (Resp1 [rc 1; rc 2])
                       (Freq1 [rq 2; rq 1]) false empty_state)
                    [rq 2; rq 1] eq_refl eq_refl)
      as (r & Hr & _ & _ & _ & Hfr).
    exists r. split; [exact Hr | exact Hfr].
Defined.

(** ** Evaluation of a smooth FRD *)

Section Smooth.
Context {tck : Type} (splprep : list Qc -> list complex -> option tck)
        (splev : complex -> tck -> complex).

Lemma fit_channels_lookup (ws : list Qc) (a : ndarray3)
      (tbl : list (list tck)) (i j : nat) :
  fit_channels splprep ws a = Some tbl ->
  wf_ndarray3 a -> (i < dim0 a)%nat -> (j < dim1 a)%nat ->
  exists t, tbl !! i ≫= (.!! j) = Some t /\
            splprep ws (nth j (nth i (data3 a) []) []) = Some t.
Proof.
  unfold fit_channels. intros Hfit [Hlen Hrows] Hi Hj.
  apply mapM_Some in Hfit.
  destruct (lookup_lt_is_Some_2 (data3 a) i) as [row Hrow]; [lia|].
  destruct (Forall2_lookup_l _ _ _ _ _ Hfit Hrow) as (trow & Htrow & Hfitrow).
  apply mapM_Some in Hfitrow.
  pose proof (Forall_lookup_1 _ _ _ _ Hrows Hrow) as [Hlrow _].
  destruct (lookup_lt_is_Some_2 row j) as [ch Hch]; [lia|].
  destruct (Forall2_lookup_l _ _ _ _ _ Hfitrow Hch) as (t & Ht & Hfitch).
  exists t. split.
  - rewrite Htrow. exact Ht.
  - rewrite (nth_lookup_Some _ _ _ _ Hrow), (nth_lookup_Some _ _ _ _ Hch).
    exact Hfitch.
Qed.

(** X21: an FRD constructed with [smooth=True] from a response array
    carries, for every channel, the spline that [splprep] fitted to that
    channel over the given frequencies.  Its [eval] never reads the
    store and never raises the not-in-list error: in every state and for
    every 1-d request without positive imaginary part, [eval] with
    [squeeze=False] returns an array with one sample per requested
    frequency whose entry [(i, j, k)] is [splev] of the [k]-th requested
    frequency on the spline of channel [(i, j)]. *)
Theorem smooth_eval_interpolates (a : ndarray3) (ws : list Qc)
        (s s' : state) (r : FRD tck) (req : list complex) (s2 : state) :
  FRD_init splprep (ArgsData (Resp3 a) (Freq1 ws)) true s = (Ok r, s') ->
  wf_ndarray3 a ->
  existsb (fun c => gt0 (im c)) req = false ->
  exists out,
    eval splev r (Array1 req) (Some false) s2 = (Ok (RArray out), s2) /\
    shape3 out = (dim0 a, dim1 a, length req) /\
    forall i j k, (i < dim0 a)%nat -> (j < dim1 a)%nat -> (k < length req)%nat ->
      exists t, splprep ws (nth j (nth i (data3 a) []) []) = Some t /\
                get3 out i j k = splev (nth k req c0) t.
Proof.
  intros H Hwf Hreq.
  assert (exists tbl, fit_channels splprep ws a = Some tbl /\
                      r = mkFRD (length (heap s)) a (Some tbl)) as (tbl & Hfit & ->).
  { destruct (Nat.eqb (dim2 a) (length ws)) eqn:E.
    - apply Nat.eqb_eq in E. rewrite (FRD_init_data splprep a ws true s E) in H.
      cbv zeta in H. destruct (fit_channels splprep ws a) as [tbl|]; [|discriminate].
      exists tbl. split; [reflexivity|]. now inversion H.
    - unfold FRD_init, bind in H. cbn in H. rewrite E in H. discriminate. }
  unfold eval. cbn [atleast_1d]. rewrite Hreq. cbn [ifunc].
  unfold bind, ret. cbn [_process_frequency_response].
  eexists. split; [reflexivity|]. split; [reflexivity|].
  intros i j k Hi Hj Hk.
  destruct (fit_channels_lookup ws a tbl i j Hfit Hwf Hi Hj) as (t & Ht & Hsp).
  exists t. split; [exact Hsp|].
  rewrite get3_build3 by assumption. now rewrite Ht.
Qed.

End Smooth.

(** A smooth [frd([1,2],[1,2])] evaluated off its grid, in a store where
    the grid has been overwritten. *)
Lemma smooth_eval_interpolates_witness :
  exists out,
    eval splev_unit (mkFRD 0 (reshape_1_1 [rc 1; rc 2]) (Some [[tt]]))
         (Array1 [rc 7; rc 3; rc 5]) (Some false) (St [[]] [])
    = (Ok (RArray out), St [[]] []) /\
    shape3 out = (1, 1, 3)%nat.
Proof.
  destruct (smooth_eval_interpolates splprep_unit splev_unit
              (reshape_1_1 [rc 1; rc 2]) [rq 1; rq 2] empty_state
              (St [[rq 1; rq 2]] []) (mkFRD 0 (reshape_1_1 [rc 1; rc 2]) (Some [[tt]]))
              [rc 7; rc 3; rc 5] (St [[]] []))
    as (out & Hout & Hsh & _).
  - by_compute.
  - split; [reflexivity|]. repeat constructor.
  - reflexivity.
  - exists out. split; [exact Hout | exact Hsh].
Defined.

(** ** An analytic model as the right operand *)

Section LTIOperand.
Context {tck : Type} (splprep : list Qc -> list complex -> option tck).

(** X22: [f * sys] for an analytic LTI model [sys] samples [sys] at the
    ascending sort of [f]'s frequencies, without touching [f]'s stored
    grid (unlike an FRD operand, [np.sort] works on a copy), fits a
    spline to these samples, and multiplies index by index: slice [k] of
    the result, which is stored on [f]'s grid in its stored order, is
    [f]'s slice [k] times the response of [sys] at the [k]-th smallest
    frequency. *)
Theorem mul_lti (f : FRD tck) (sys : LTI) (s : state) (ws : list Qc) :
  heap s !! omega f = Some ws ->
  let resp := match freqresp sys (lti_points sys (sort ws)) with
              | Out1 v => reshape_1_1 v
              | Out3 a => a
              end in
  dim2 resp = length ws ->
  is_Some (fit_channels splprep (sort ws) resp) ->
  ninputs f = dim0 resp ->
  (is_smooth f = true ->
   is_Some (fit_channels splprep ws
              (matmul3 (noutputs f) (dim1 resp) (length ws) (fresp f) resp))) ->
  exists r,
    __mul__ splprep f (OLTI sys) s =
      (Ok r, St (heap s ++ [sort ws; ws]) (warnings s)) /\
    omega r = S (length (heap s)) /\
    is_smooth r = is_smooth f /\
    shape3 (fresp r) = (noutputs f, dim1 resp, length ws) /\
    forall k, (k < length ws)%nat ->
      slice (fresp r) k = matmul (slice (fresp f) k) (slice resp k).
Proof.
  intros Hf resp Hdim [tbl Htbl] Hsize Hfit.
  set (s1 := St (heap s ++ [sort ws]) (warnings s)).
  assert (Hconv : _convert_to_frd splprep (OLTI sys) (omega f) 1 1 s =
                  (Ok (mkFRD (length (heap s)) resp (Some tbl)), s1)).
  { unfold _convert_to_frd.
    rewrite (bind_Ok _ _ _ _ _ (read_Ok _ _ _ Hf)). fold resp.
    rewrite FRD_init_data by (now rewrite length_sort). cbv zeta.
    now rewrite Htbl. }
  unfold __mul__. rewrite (bind_Ok _ _ _ _ _ Hconv).
  unfold noutputs at 1. cbn [fresp is_smooth ifunc].
  rewrite Hsize, Nat.eqb_refl. cbn [negb].
  assert (Hf1 : heap s1 !! omega f = Some ws) by (now apply lookup_alloc_old).
  rewrite (bind_Ok _ _ _ _ _ (read_Ok _ _ _ Hf1)).
  unfold ninputs at 1. cbn [fresp]. rewrite andb_true_r.
  set (prod := matmul3 (noutputs f) (dim1 resp) (length ws) (fresp f) resp).
  rewrite (FRD_init_data splprep prod ws (is_smooth f) s1)
    by (unfold prod, dim2; now rewrite shape_matmul3).
  cbv zeta. subst s1. cbn [heap warnings].
  rewrite length_app, <- app_assoc. cbn [length app]. rewrite Nat.add_1_r.
  assert (Hslices : forall k, (k < length ws)%nat ->
            slice prod k = matmul (slice (fresp f) k) (slice resp k)).
  { intros k Hk. unfold prod, noutputs. now apply slice_matmul3. }
  assert (Hshape : shape3 prod = (noutputs f, dim1 resp, length ws))
    by apply shape_matmul3.
  destruct (is_smooth f) eqn:Hsm.
  - destruct (Hfit eq_refl) as [tbl' Htbl']. fold prod in Htbl'. rewrite Htbl'.
    eexists. split; [reflexivity|]. cbn [omega fresp is_smooth ifunc]. auto.
  - eexists. split; [reflexivity|]. cbn [omega fresp is_smooth ifunc]. auto.
Qed.

End LTIOperand.

(** [frd([10,20],[2,1]) * sys] with [sys(j*w) = w]: the sample stored at
    frequency 2 is multiplied by the response at frequency 1. *)
Lemma mul_lti_witness :
  let f := siso_at 0 [rc 10; rc 20] in
  let s := St [[rq 2; rq 1]] [] in
  exists r,
    __mul__ splprep_unit f (OLTI ramp_model) s =
      (Ok r, St [[rq 2; rq 1]; [rq 1; rq 2]; [rq 2; rq 1]] []) /\
    slice (fresp r) 0 = Mat (1, 1)%nat [[rc 10]] /\
    slice (fresp r) 1 = Mat (1, 1)%nat [[rc 40]].
Proof.
  intros f s.
  destruct (mul_lti splprep_unit f ramp_model s [rq 2; rq 1] eq_refl)
    as (r & Hr & _ & _ & _ & Hslices).
  - reflexivity.
  - eexists. reflexivity.
  - reflexivity.
  - discriminate.
  - exists r. split; [exact Hr|]. split.
    + rewrite Hslices by (cbn; lia). by_compute.
    + rewrite Hslices by (cbn; lia). by_compute.
Defined.
